(** * Verification of the RAG-Server chat gateway

    A shallow embedding of [app/knowledge_base.py] (the keyword context
    selector), [app/gemini_client.py] (prompt assembly, the retry loop and the
    single-worker request queue) and of the error classification of
    [app/main.py], followed by the properties proved about them.

    Conventions.  Python [str] values are modelled as [string], the UTF-8
    encoding of the text; every keyword of the catalog is plain ASCII, and
    [str_lower] lower-cases the ASCII letters.  [strip] works on the
    characters of the text and removes all the white space that Python
    removes.  The hit counts are natural numbers, delays are integers
    counted in seconds.  The event loop is a schedule of requests, worker
    progress and cancellations of callers that wait for their answer. *)

From Stdlib Require Import ZArith Lia Ascii String.
From stdpp Require Import base list strings gmap.

Local Open Scope string_scope.
Local Open Scope list_scope.

(** ** Python string primitives used by the sources *)
Module PyStr.

(** The double-quote character, spliced into literals that contain it. *)
Definition dq : string := String (ascii_of_nat 34) EmptyString.

(** [s.startswith(p)] *)
Fixpoint startswith (p s : string) : bool :=
  match p, s with
  | EmptyString, _ => true
  | String _ _, EmptyString => false
  | String a p', String b s' => if Ascii.eqb a b then startswith p' s' else false
  end.

(** [kw in s]: [kw] occurs in [s] as a contiguous substring. *)
Fixpoint str_in (kw s : string) : bool :=
  if startswith kw s then true
  else match s with
       | EmptyString => false
       | String _ s' => str_in kw s'
       end.

Definition lower_ascii (c : ascii) : ascii :=
  let n := nat_of_ascii c in
  if (65 <=? n)%nat && (n <=? 90)%nat then ascii_of_nat (n + 32) else c.

(** [s.lower()] *)
Fixpoint str_lower (s : string) : string :=
  match s with
  | EmptyString => EmptyString
  | String c s' => String (lower_ascii c) (str_lower s')
  end.

(** [sep.join(parts)] *)
Fixpoint str_join (sep : string) (parts : list string) : string :=
  match parts with
  | [] => EmptyString
  | [p] => p
  | p :: rest => p +:+ sep +:+ str_join sep rest
  end.

End PyStr.
Import PyStr.

(** ** Python's [sorted(xs, key=key, reverse=True)]

    The built-in sort is stable, also with [reverse=True]: elements come out
    by decreasing key and elements with equal keys keep the order they had
    in the input.  It is modelled by the stable insertion sort below. *)
Module PySorted.
Section Sorted.
Context {A : Type} (key : A -> nat).

Fixpoint insert_desc (x : A) (l : list A) : list A :=
  match l with
  | [] => [x]
  | y :: l' => if (key x <? key y)%nat then y :: insert_desc x l' else x :: l
  end.

Definition sorted_reverse (l : list A) : list A := foldr insert_desc [] l.
End Sorted.
End PySorted.
Import PySorted.

(** ** app/knowledge_base.py *)

Record Section := mkSection {
  id : string;
  title : string;
  keywords : list string;
  content : string
}.

Definition sec_overview : Section :=
  {| id := "overview";
     title := "1. General Product Overview";
     keywords := ["skedulelt"; "skeduleit"; "what is"; "about"; "overview"; "platform"; "ios"; "android"; "trinidad"; "mobile app"; "website"; "web app"];
     content := "SkeduleIt is a mobile scheduling and payment solution designed for service
providers and customers in Trinidad & Tobago (T&T).

Target Users : Service businesses (barbers, hairdressers, aestheticians, etc.)
               and their customers.
Platforms    : iOS and Android mobile apps, plus a public website.
               A web app with full functionality will be available soon.

Two Apps:
• Customer App  - Browse businesses, book appointments, manage bookings
• Business App  - Manage profile, services, team, availability, payments" |}.

Definition sec_account_signup : Section :=
  {| id := "account_signup";
     title := "2. Account Creation & Signup";
     keywords := ["sign up"; "signup"; "create account"; "register"; "new account"; "customer account"; "business account"; "credit card"; "payment info"; "approval"; "review process"; "free trial"];
     content := "=== Customer Accounts ===
When you create a customer account, you can immediately:
• Browse businesses
• Schedule appointments
• Manage upcoming appointments
• Receive confirmations and reminders

No credit card required. Your account is active immediately upon signup.

=== Business Accounts ===
When a business signs up, the account enters a brief review process to ensure
only legitimate businesses are listed. Once approved, you can:
• Create your business profile
• Add services and pricing
• Add team members (service providers)
• Manage availability
• Handle appointments
• Use payment and reporting tools

No credit card required during signup or free trial. Payment details are only
needed if you choose to continue with a paid plan after the trial.

=== Guest Booking ===
Customers can browse and book appointments WITHOUT creating an account, but
certain features (like managing bookings and receiving reminders) require signup." |}.

Definition sec_business_vs_provider : Section :=
  {| id := "business_vs_provider";
     title := "3. Business vs Service Provider";
     keywords := ["business"; "service provider"; "team member"; "employee"; "sole trader"; "independent contractor"; "difference"; "multiple providers"; "add team"; "staff"];
     content := "=== What's the Difference? ===

Business:
The company or entity listed on SkeduleIt (e.g., 'Trini Cuts Barbershop').

Service Provider:
An individual who performs the service - whether an employee, team member,
sole trader, or independent contractor under that business.

Example:
• 'Trini Cuts Barbershop' is the Business
• 'Marcus (Barber)' and 'Jade (Barber)' are Service Providers

For Sole Traders:
If you work alone, the business and service provider are essentially the same.

=== Adding Multiple Service Providers ===
Yes! Businesses can add multiple service providers or team members to their
account and assign specific services to each person." |}.

Definition sec_customer_faq : Section :=
  {| id := "customer_faq";
     title := "4. Customer FAQ";
     keywords := ["book"; "booking"; "schedule"; "appointment"; "make appointment"; "browse"; "search"; "find business"; "cancel appointment"; "manage booking"; "confirmation"; "reminder"];
     content := "=== How do I book an appointment? ===
Open the SkeduleIt Customer App, browse or search for a business, view their
services and availability, and select a time slot. You can book with or without
creating an account.

=== Can I manage my appointments? ===
Yes! If you have a customer account, you can view, reschedule, or cancel
upcoming appointments directly in the app. You'll also receive confirmations
and reminders.

=== Is my information private? ===
Yes. Your customer information is completely private and never visible to
other customers." |}.

Definition sec_business_faq : Section :=
  {| id := "business_faq";
     title := "5. Business FAQ";
     keywords := ["manage"; "schedule"; "availability"; "calendar"; "working hours"; "business profile"; "services"; "pricing"; "team"; "payments"; "reporting"; "analytics"; "social media"; "instagram"; "facebook"; "booking link"; "share"];
     content := "=== How do I manage my business profile? ===
Use the Business App to create and edit your profile, add services with pricing,
set your availability, and manage your team.

=== Can I share my SkeduleIt booking link? ===
Yes! You can share your SkeduleIt booking link on Instagram, Facebook, WhatsApp,
and other platforms so customers can book services directly.

=== Does SkeduleIt handle payments? ===
Yes. SkeduleIt includes integrated payment processing tools.

=== Can I see business performance and earnings? ===
Yes. The Business App includes reporting and analytics tools to track your
transactions, popular services, and earnings." |}.

Definition sec_support_help : Section :=
  {| id := "support_help";
     title := "6. Help & Support";
     keywords := ["help"; "support"; "contact"; "assistance"; "learn more"; "onboarding"; "get help"; "customer service"];
     content := "=== Where can I get help? ===
Support is available through the in-app 'Help & Support' section in both the
Customer and Business apps.

Additional resources:
• SkeduleIt website
• Social media platforms
• Onboarding assistance for businesses during early rollout

=== Where can I learn more about SkeduleIt? ===
Information is available in the app's Help & Support section, on the SkeduleIt
website, and across social media platforms." |}.

Definition sec_account_management : Section :=
  {| id := "account_management";
     title := "7. Account Management";
     keywords := ["cancel account"; "close account"; "delete account"; "deactivate"; "remove account"; "account closure"];
     content := "=== Can I cancel my account? ===
Yes. Both customers and businesses can request account closure at any time.
A confirmation step is included for security.

For businesses: Closing your account will remove your business from SkeduleIt
and cancel all future appointments." |}.

Definition SECTIONS : list Section :=
  [sec_overview; sec_account_signup; sec_business_vs_provider; sec_customer_faq; sec_business_faq; sec_support_help; sec_account_management].

(** [get_full_knowledge_base()] *)
Definition fmt_section (s : Section) : string :=
  "### " +:+ title s +:+ "
" +:+ content s.

Definition KB_SEPARATOR : string := "

---

".

Definition get_full_knowledge_base (_ : unit) : string :=
  str_join KB_SEPARATOR (map fmt_section SECTIONS).

Record RelevantContext := mkRelevantContext {
  matched : list string;
  full_text : string
}.

(** [sum(1 for kw in section.keywords if kw in lower)] *)
Definition hits_of (lower : string) (section : Section) : nat :=
  foldr (fun kw acc => if str_in kw lower then (1 + acc)%nat else acc) 0%nat
        (keywords section).

(** The local [matched] of [get_relevant_context]: the sections of [scored]
    with a positive hit count, sorted by the recomputed count, highest first. *)
Definition matched_of (lower : string) : list Section :=
  let scored := map (fun section => (section, hits_of lower section)) SECTIONS in
  sorted_reverse (fun sec => hits_of lower sec)
    (map fst (filter (fun sh => 0 < snd sh) scored)).

(** [matched if matched else SECTIONS] *)
Definition selected_of (lower : string) : list Section :=
  match matched_of lower with
  | [] => SECTIONS
  | (_ :: _) as m => m
  end.

Definition get_relevant_context (query : string) : RelevantContext :=
  let lower := str_lower query in
  let selected := selected_of lower in
  {| matched := map title selected;
     full_text := str_join KB_SEPARATOR (map fmt_section selected) |}.

(** ** app/gemini_client.py *)

(** The values an attribute of an exception may hold, as far as the retry
    loop tells them apart. *)
Inductive PyValue :=
| PyNone
| PyInt (z : Z)
| PyStr (s : string).

(** An exception raised by the SDK call: what [getattr(exc, "code", None)]
    and [getattr(exc, "status_code", None)] give (a missing attribute gives
    [PyNone]) and [str(exc)]. *)
Record Exception := mkException {
  exc_code : PyValue;
  exc_status_code : PyValue;
  exc_message : string
}.

(** What one call of [_client.models.generate_content] does. *)
Inductive Outcome :=
| Returned (response_text : string)
| Raised (exc : Exception).

Inductive PyResult (A : Type) :=
| Return (a : A)
| Raise (exc : Exception).
Arguments Return {A} a.
Arguments Raise {A} exc.

(** [genai_types.Content(role=r, parts=[genai_types.Part(text=t)])] *)
Record Content := mkContent {
  role : string;
  text : string
}.

Definition MAX_RETRIES : nat := 4.
Definition BASE_DELAY_S : Z := 2.

Definition PROMPT_HEAD : string :=
  ("You are the official Skedulelt Support Assistant.
Skedulelt is a mobile scheduling & payment app for service providers
and customers in Trinidad & Tobago.

Rules:
  • Answer ONLY based on the knowledge base below.
  • If the question falls outside the knowledge base, say:
    " +:+ dq +:+ "I'm sorry, I don't have information on that. Please contact
     our support team for further assistance." +:+ dq +:+ "
  • Be friendly, concise, and helpful.
  • Do NOT hallucinate features, policies, or prices.
  • Respond in English.

════════════════════════════════════════════════
 SKEDULELT KNOWLEDGE BASE
════════════════════════════════════════════════
").

Definition PROMPT_TAIL : string :=
  "
════════════════════════════════════════════════".

(** [_build_system_prompt()] *)
Definition _build_system_prompt (_ : unit) : string :=
  PROMPT_HEAD +:+ get_full_knowledge_base tt +:+ PROMPT_TAIL.

Definition GROUNDING_ACK : string :=
  "Got it. I'm the Skedulelt Support Assistant. I'll answer only based on the knowledge base provided. How can I help?".

(** One entry of [history]: [{"role": ..., "text": ...}]. *)
Record ChatTurn := mkChatTurn {
  turn_role : string;
  turn_text : string
}.

Record ChatResult := mkChatResult {
  answer : string;
  matched_sections : list string
}.

(** ["model" if turn["role"] == "assistant" else "user"] *)
Definition history_role (turn : ChatTurn) : string :=
  if String.eqb (turn_role turn) "assistant" then "model" else "user".

(** The [contents] list built by [chat] (lines 168-194): two literal
    entries, one [append] per history turn, one [append] for the message. *)
Definition chat_contents (history : list ChatTurn) (current_message : string)
  : list Content :=
  let contents :=
    [ mkContent "user" (_build_system_prompt tt);
      mkContent "model" GROUNDING_ACK ] in
  let contents :=
    fold_left
      (fun contents turn => contents ++ [mkContent (history_role turn) (turn_text turn)])
      history contents in
  contents ++ [mkContent "user" current_message].

(** *** The rate-limit queue

    The module-level state of [gemini_client] ([_queue], [_worker_task]), the
    futures created by [chat], and two ghost fields: the number of SDK calls
    made so far and the chronological log of what happened. Futures are
    named by the order in which [chat] created them. *)

Inductive Event :=
| EvPut (future : nat)                                 (* q.put((future, contents)) *)
| EvInvoke (job : option nat) (contents : list Content) (* generate_content called *)
| EvSleep (delay : Z)                                  (* asyncio.sleep(delay) *)
| EvSetResult (future : nat) (answer : string)         (* future.set_result *)
| EvSetException (future : nat) (exc : Exception)      (* future.set_exception *)
| EvCancel (future : nat)                              (* the awaiting caller is cancelled *)
| EvInvalidState (future : nat).                       (* InvalidStateError leaves the worker *)

Inductive FutureState :=
| Pending
| Resolved (answer : string)
| Failed (exc : Exception)
| Cancelled.

Inductive Worker :=
| NotStarted      (* _worker_task is None *)
| Finished        (* _worker_task.done() *)
| Idle            (* suspended in q.get() *)
| Running (future : nat) (contents : list Content)
          (attempt : nat) (last_err : option Exception).

Record World := mkWorld {
  w_queue : list (nat * list Content);
  w_worker : Worker;
  w_futures : gmap nat FutureState;
  w_next_future : nat;
  w_calls : nat;
  w_trace : list Event
}.

Definition init : World :=
  {| w_queue := []; w_worker := NotStarted; w_futures := ∅;
     w_next_future := 0; w_calls := 0; w_trace := [] |}.

Definition set_queue (q : list (nat * list Content)) (w : World) : World :=
  mkWorld q (w_worker w) (w_futures w) (w_next_future w) (w_calls w) (w_trace w).
Definition set_worker (k : Worker) (w : World) : World :=
  mkWorld (w_queue w) k (w_futures w) (w_next_future w) (w_calls w) (w_trace w).
Definition set_future (f : nat) (st : FutureState) (w : World) : World :=
  mkWorld (w_queue w) (w_worker w) (<[f := st]> (w_futures w))
          (w_next_future w) (w_calls w) (w_trace w).
Definition emit (e : Event) (w : World) : World :=
  mkWorld (w_queue w) (w_worker w) (w_futures w) (w_next_future w)
          (w_calls w) (w_trace w ++ [e]).

(** The job the worker coroutine holds in its local [future]. *)
Definition current_job (w : World) : option nat :=
  match w_worker w with
  | Running future _ _ _ => Some future
  | _ => None
  end.

(** Ghost bookkeeping of one SDK call. *)
Definition record_call (contents : list Content) (w : World) : World :=
  mkWorld (w_queue w) (w_worker w) (w_futures w) (w_next_future w)
          (S (w_calls w))
          (w_trace w ++ [EvInvoke (current_job w) contents]).

(** State monad over [World]. *)
Definition M (A : Type) : Type := World -> A * World.

#[local] Instance M_ret : MRet M := fun A a w => (a, w).
#[local] Instance M_bind : MBind M :=
  fun A B f m w => let (a, w') := m w in f a w'.

Definition modify (f : World -> World) : M unit := fun w => (tt, f w).

(** Truth value of an attribute: [None], [0] and the empty string are false. *)
Definition truthy (v : PyValue) : bool :=
  match v with
  | PyNone => false
  | PyInt z => negb (z =? 0)%Z
  | PyStr s => negb (String.eqb s "")
  end.

(** [a or b] *)
Definition py_or (a b : PyValue) : PyValue :=
  if truthy a then a else b.

(** [status = getattr(exc, "code", None) or getattr(exc, "status_code", None)] *)
Definition status_of (exc : Exception) : PyValue :=
  py_or (exc_code exc) (exc_status_code exc).

(** [status == 429] *)
Definition is_429 (status : PyValue) : bool :=
  match status with
  | PyInt z => (z =? 429)%Z
  | _ => false
  end.

(** [raise last_err] of line 109; raising [None] is a [TypeError]. *)
Definition raise_last (last_err : option Exception) : PyResult string :=
  match last_err with
  | Some exc => Raise exc
  | None => Raise (mkException PyNone PyNone "exceptions must derive from BaseException")
  end.

(** How one pass through the body of the [for] loop ends. *)
Inductive Control :=
| Break (response_text : string)   (* return response.text *)
| Continue (last_err : Exception)  (* slept, next attempt *)
| Reraise (exc : Exception).       (* raise *)

Section Dispatcher.
(** The provider: what the [n]-th call of [generate_content] made by this
    process does, given the contents it is called with. *)
Context (provider : nat -> list Content -> Outcome).

Definition generate_content (contents : list Content) : M Outcome :=
  fun w => (provider (w_calls w) contents, record_call contents w).

Definition sleep (delay : Z) : M unit := modify (emit (EvSleep delay)).

(** Body of [for attempt in range(MAX_RETRIES + 1)] (lines 84-107). *)
Definition attempt_once (contents : list Content) (attempt : nat) : M Control :=
  r ← generate_content contents;
  match r with
  | Returned response_text => mret (Break response_text)
  | Raised exc =>
      let status := status_of exc in
      if is_429 status && (attempt <? MAX_RETRIES)%nat then
        let delay := (BASE_DELAY_S * 2 ^ Z.of_nat attempt)%Z in
        _ ← sleep delay;
        mret (Continue exc)
      else mret (Reraise exc)
  end.

Fixpoint retry_loop (contents : list Content) (attempts : list nat)
         (last_err : option Exception) : M (PyResult string) :=
  match attempts with
  | [] => mret (raise_last last_err)
  | attempt :: rest =>
      c ← attempt_once contents attempt;
      match c with
      | Break response_text => mret (Return response_text)
      | Continue exc => retry_loop contents rest (Some exc)
      | Reraise exc => mret (Raise exc)
      end
  end.

Definition _call_with_retry (contents : list Content) : M (PyResult string) :=
  retry_loop contents (seq 0 (MAX_RETRIES + 1)) None.

(** [future.set_result(answer)] / [except Exception as exc:
    future.set_exception(exc)] (lines 68-71).  Both raise
    [InvalidStateError] on a future that is not pending, which is the case
    when the caller that awaited it was cancelled meanwhile; the error of
    [set_exception] then escapes the [while] loop and the worker task is
    done. *)
Definition settle (future : nat) (r : PyResult string) : M unit :=
  fun w =>
    match w_futures w !! future with
    | Some Pending =>
        match r with
        | Return answer =>
            (tt, set_worker Idle
                   (emit (EvSetResult future answer)
                      (set_future future (Resolved answer) w)))
        | Raise exc =>
            (tt, set_worker Idle
                   (emit (EvSetException future exc)
                      (set_future future (Failed exc) w)))
        end
    | _ => (tt, set_worker Finished (emit (EvInvalidState future) w))
    end.

(** One pass through [while True] of [_queue_worker], run to its end.
    Returns [false] when [q.get()] has nothing to deliver. *)
Definition worker_iteration : M bool :=
  fun w =>
    match w_worker w, w_queue w with
    | Idle, (future, contents) :: rest =>
        (r ← _call_with_retry contents;
         _ ← settle future r;
         mret true)
          (set_worker (Running future contents 0 None) (set_queue rest w))
    | _, _ => (false, w)
    end.

(** [_ensure_worker()] *)
Definition _ensure_worker : M unit :=
  fun w =>
    match w_worker w with
    | NotStarted | Finished => (tt, set_worker Idle w)
    | _ => (tt, w)
    end.

(** [loop.create_future()] *)
Definition create_future : M nat :=
  fun w =>
    let f := w_next_future w in
    (f, mkWorld (w_queue w) (w_worker w) (<[f := Pending]> (w_futures w))
                (S f) (w_calls w) (w_trace w)).

(** [q.put((future, contents))] on the unbounded queue. *)
Definition q_put (job : nat * list Content) : M unit :=
  modify (fun w => emit (EvPut (fst job)) (set_queue (w_queue w ++ [job]) w)).

(** Lines 197-202 of [chat]. *)
Definition submit (contents : list Content) : M nat :=
  _ ← _ensure_worker;
  future ← create_future;
  _ ← q_put (future, contents);
  mret future.

(** [answer = await future; return ChatResult(...)] (lines 204-206):
    [None] while the caller is still suspended, and when it was cancelled
    there ([CancelledError] is no [Exception] and yields no response). *)
Definition chat_await (ctx : RelevantContext) (future : nat) (w : World)
  : option (PyResult ChatResult) :=
  match w_futures w !! future with
  | Some (Resolved answer) => Some (Return (mkChatResult answer (matched ctx)))
  | Some (Failed exc) => Some (Raise exc)
  | _ => None
  end.

(** [chat] up to its suspension at [await future]. *)
Definition chat_enqueue (history : list ChatTurn) (current_message : string)
  : M (RelevantContext * nat) :=
  let ctx := get_relevant_context current_message in
  let contents := chat_contents history current_message in
  future ← submit contents;
  mret (ctx, future).

(** The worker coroutine advanced from one suspension point to the next:
    from [q.get()] to the first SDK call, or through one attempt. *)
Definition worker_step : M unit :=
  fun w =>
    match w_worker w with
    | NotStarted | Finished => (tt, w)
    | Idle =>
        match w_queue w with
        | [] => (tt, w)
        | (future, contents) :: rest =>
            (tt, set_worker (Running future contents 0 None) (set_queue rest w))
        end
    | Running future contents attempt last_err =>
        if (attempt <? MAX_RETRIES + 1)%nat then
          let (c, w1) := attempt_once contents attempt w in
          match c with
          | Break response_text => settle future (Return response_text) w1
          | Continue exc =>
              (tt, set_worker (Running future contents (S attempt) (Some exc)) w1)
          | Reraise exc => settle future (Raise exc) w1
          end
        else settle future (raise_last last_err) w
    end.

(** The task that runs [chat] is cancelled (its client went away, a
    timeout around it fired) while it is suspended in [await future]: the
    task cancels the future it waits for, which takes effect when the
    future is still pending. *)
Definition cancel_caller (future : nat) : M bool :=
  fun w =>
    match w_futures w !! future with
    | Some Pending =>
        (true, emit (EvCancel future) (set_future future Cancelled w))
    | _ => (false, w)
    end.

(** What the event loop may schedule next. *)
Inductive Action :=
| Submit (history : list ChatTurn) (current_message : string)
| WorkerStep
| Cancel (future : nat).

Definition step (a : Action) (w : World) : World :=
  match a with
  | Submit history current_message => snd (chat_enqueue history current_message w)
  | WorkerStep => snd (worker_step w)
  | Cancel future => snd (cancel_caller future w)
  end.

Definition run (schedule : list Action) (w : World) : World :=
  fold_left (fun w a => step a w) schedule w.

(** [chat] when no other request arrives while it waits: the worker is
    given as many iterations as there are queued jobs. *)
Fixpoint drain (n : nat) : M unit :=
  match n with
  | O => mret tt
  | S n' => _ ← worker_iteration; drain n'
  end.

Definition chat (history : list ChatTurn) (current_message : string)
  : M (option (PyResult ChatResult)) :=
  fun w =>
    let '((ctx, future), w1) := chat_enqueue history current_message w in
    let '(_, w2) := drain (length (w_queue w1)) w1 in
    (chat_await ctx future w2, w2).

End Dispatcher.

(** ** app/main.py: the classification of [chat_endpoint] (lines 140-160) *)

Inductive ErrorClass :=
| rate_limit
| configuration
| service_unavailable
| content_blocked
| internal_server_error.

(** [any(x in error_msg.lower() for x in xs)] *)
Definition any_in (xs : list string) (error_msg : string) : bool :=
  existsb (fun x => str_in x (str_lower error_msg)) xs.

(** The class reported for [str(e)]. *)
Definition classify (error_msg : string) : ErrorClass :=
  if any_in ["429"; "quota"; "rate limit"] error_msg then rate_limit
  else if any_in ["api key"; "authentication"; "unauthorized"] error_msg then configuration
  else if any_in ["overloaded"; "unavailable"; "timeout"] error_msg then service_unavailable
  else if any_in ["safety"; "blocked"; "violation"] error_msg then content_blocked
  else internal_server_error.

(** ** Ordering vocabulary used by the statements *)

(** [a] occurs in [l] somewhere to the left of an occurrence of [b]. *)
Definition before {A : Type} (l : list A) (a b : A) : Prop :=
  exists l1 l2 l3, l = l1 ++ a :: l2 ++ b :: l3.

(** Decreasing keys from left to right. *)
Definition descending {A : Type} (key : A -> nat) (l : list A) : Prop :=
  forall i j a b, l !! i = Some a -> l !! j = Some b -> i < j -> key b <= key a.

(** The back-off delay slept after the failed attempt numbered [attempt]. *)
Definition backoff (attempt : nat) : Z := (BASE_DELAY_S * 2 ^ Z.of_nat attempt)%Z.

(** The log of [K] failed attempts, numbered from [first], each followed by
    its back-off sleep. *)
Definition retry_events (job : option nat) (contents : list Content)
           (first K : nat) : list Event :=
  flat_map (fun attempt => [EvInvoke job contents; EvSleep (backoff attempt)])
           (seq first K).

(** The delays slept, and the number of SDK calls, in a log. *)
Definition delays_of (t : list Event) : list Z :=
  omap (fun e => match e with EvSleep d => Some d | _ => None end) t.

(** The jobs on whose behalf the SDK was called, one entry per call. *)
Definition invocations_of (t : list Event) : list (option nat) :=
  omap (fun e => match e with EvInvoke job _ => Some job | _ => None end) t.

(** The world after the ghost bookkeeping of some calls and sleeps. *)
Definition logged (w : World) (calls : nat) (events : list Event) : World :=
  mkWorld (w_queue w) (w_worker w) (w_futures w) (w_next_future w)
          (w_calls w + calls) (w_trace w ++ events).

(** The futures put on the queue, and the futures settled (result or
    exception set), in a log, in the order in which that happened. *)
Definition puts_of (t : list Event) : list nat :=
  omap (fun e => match e with EvPut f => Some f | _ => None end) t.

Definition settled_of (t : list Event) : list nat :=
  omap (fun e => match e with
                 | EvSetResult f _ | EvSetException f _ => Some f
                 | _ => None
                 end) t.

(** The jobs the worker is done with, in the order in which that
    happened: the future was settled, or could not be because it was no
    longer pending. *)
Definition finished_of (t : list Event) : list nat :=
  omap (fun e => match e with
                 | EvSetResult f _ | EvSetException f _ | EvInvalidState f => Some f
                 | _ => None
                 end) t.

(** Every SDK call in the log is made for the job that comes right after
    the jobs the worker was done with at that time. *)
Definition invokes_ok (t : list Event) : Prop :=
  forall t1 t2 job c,
    t = t1 ++ EvInvoke job c :: t2 -> job = Some (length (finished_of t1)).

(** The worker gives up on a future only after its caller cancelled it. *)
Definition cancels_ok (t : list Event) : Prop :=
  forall t1 t2 f, t = t1 ++ EvInvalidState f :: t2 -> EvCancel f ∈ t1.

(** The invariant of the queue, the worker and the log. *)
Definition Inv (w : World) : Prop :=
  let t := w_trace w in
  let d := length (finished_of t) in
  let n := w_next_future w in
  puts_of t = seq 0 n
  /\ finished_of t = seq 0 d
  /\ invokes_ok t
  /\ (forall f, d <= f < n ->
        w_futures w !! f = Some Pending \/ w_futures w !! f = Some Cancelled)
  /\ match w_worker w with
     | Running f _ _ _ =>
         f = d /\ d < n /\ map fst (w_queue w) = seq (S d) (n - S d)
     | _ => d <= n /\ map fst (w_queue w) = seq d (n - d)
     end.

(** ** The selector over an arbitrary catalog

    The two revisions of [knowledge_base.py] define [get_relevant_context]
    by the same text, each over its own [SECTIONS]. *)
Definition matched_in (catalog : list Section) (lower : string) : list Section :=
  let scored := map (fun section => (section, hits_of lower section)) catalog in
  sorted_reverse (fun sec => hits_of lower sec)
    (map fst (filter (fun sh => 0 < snd sh) scored)).

Definition selected_in (catalog : list Section) (lower : string) : list Section :=
  match matched_in catalog lower with
  | [] => catalog
  | (_ :: _) as m => m
  end.

(** ** RAG-Server/app/knowledge_base.py *)
Module RagServer.

Definition sec_overview : Section :=
  {| id := "overview";
     title := "1. General Product Overview";
     keywords := ["skedulelt"; "what is"; "about"; "overview"; "platform"; "ios"; "android"; "trinidad"];
     content := "Skedulelt is a mobile scheduling and payment solution specifically designed
for service providers and customers in Trinidad & Tobago (T&T).

Target Users : Barbers, hairdressers, aestheticians, and their clients.
Platforms    : iOS and Android." |}.

Definition sec_customer_faq : Section :=
  {| id := "customer_faq";
     title := "2. Customer FAQ";
     keywords := ["book"; "booking"; "schedule"; "appointment"; "make appointment"; "talk"; "chat"; "message"; "contact"; "send photo"; "messaging"; "pay"; "payment"; "cost"; "credit card"; "transaction"; "price"; "how do i"; "barber"; "stylist"; "portfolio"];
     content := ("--- How do I book an appointment? ---
Open the Skedulelt Customer App, use the " +:+ dq +:+ "Search & Discovery" +:+ dq +:+ " feature to find
a provider (like a barber or stylist), view their portfolio, and select an
available time slot.

--- Can I talk to my service provider before the appointment? ---
Yes. The app includes an " +:+ dq +:+ "In-App Messaging" +:+ dq +:+ " service. You can send text
messages and photos directly to your provider once a booking has been assigned.

--- How does payment work? ---
Payments are handled securely through the app's integrated " +:+ dq +:+ "Payment Processing
Service." +:+ dq +:+ " It supports local transaction standards in Trinidad & Tobago.") |}.

Definition sec_provider_faq : Section :=
  {| id := "provider_faq";
     title := "3. Service Provider FAQ";
     keywords := ["manage"; "schedule"; "availability"; "calendar"; "working hours"; "block time"; "grow"; "business"; "marketing"; "more customers"; "fill slots"; "recommendations"; "performance"; "earnings"; "report"; "analytics"; "money"; "financials"; "service provider"; "how do i get paid"];
     content := ("--- How do I manage my schedule? ---
Use the Service Provider App to set your working hours and manage your profile.
The " +:+ dq +:+ "Appointment Scheduling Service" +:+ dq +:+ " handles bookings, rescheduling, and
cancellations automatically.

--- How can I grow my business on Skedulelt? ---
The app features a " +:+ dq +:+ "Personalised Activity and Service Recommendation" +:+ dq +:+ " engine.
It sends " +:+ dq +:+ "Contextual Prompts" +:+ dq +:+ " to users near you if you have a last-minute
cancellation slot open, helping you fill your day.

--- Can I see my business performance? ---
Yes. The " +:+ dq +:+ "Financials & Reporting" +:+ dq +:+ " module provides detailed analytics on your
transactions, popular services, and earnings.") |}.

Definition sec_policies : Section :=
  {| id := "policies";
     title := "4. Official Policies";
     keywords := ["cancel"; "cancellation"; "reschedule"; "no-show"; "no show"; "policy"; "policies"; "ttd"; "currency"; "refund"; "dispute"; "safe"; "secure"; "security"; "encrypted"; "privacy"; "data"; "credit card safe"; "authentication"; "login"];
     content := ("=== Appointment & Cancellation Policy ===
1. Modifications   : Customers can reschedule or cancel appointments via the
                     mobile app.
2. Provider Rights : Service providers have the right to update their
                     availability at any time to prevent double-bookings.
3. No-Show Tracking: Reliability is monitored through the " +:+ dq +:+ "Review & Rating
                     Service." +:+ dq +:+ " Frequent no-shows may impact a user's ability
                     to book future services.

=== Payment & Refund Policy ===
1. Currency : All transactions are processed in Trinidad & Tobago Dollars (TTD).
2. Security : All payment data is encrypted and managed by a secure
              cloud-based backend (Firebase / Google Cloud).
3. Disputes : Transaction disputes are handled through the
              " +:+ dq +:+ "Admin / Customer Support Portal." +:+ dq +:+ "

=== Data Privacy & Security ===
1. Authentication : User identities are managed by a dedicated Authentication
                    Service using secure access tokens.
2. Messaging      : In-app chat is private and end-to-end encrypted between
                    the client and the provider.
3. Data Usage     : Profile data is used to provide " +:+ dq +:+ "Next Best Action" +:+ dq +:+ " prompts
                    (e.g., reminding a user it has been 16 years since their
                    last haircut).") |}.

Definition SECTIONS : list Section :=
  [sec_overview; sec_customer_faq; sec_provider_faq; sec_policies].

(** [get_full_knowledge_base()] *)
Definition get_full_knowledge_base (_ : unit) : string :=
  str_join KB_SEPARATOR (map fmt_section SECTIONS).

Definition matched_of (lower : string) : list Section :=
  let scored := map (fun section => (section, hits_of lower section)) SECTIONS in
  sorted_reverse (fun sec => hits_of lower sec)
    (map fst (filter (fun sh => 0 < snd sh) scored)).

Definition selected_of (lower : string) : list Section :=
  match matched_of lower with
  | [] => SECTIONS
  | (_ :: _) as m => m
  end.

Definition get_relevant_context (query : string) : RelevantContext :=
  let lower := str_lower query in
  let selected := selected_of lower in
  {| matched := map title selected;
     full_text := str_join KB_SEPARATOR (map fmt_section selected) |}.

End RagServer.

(** ** RAG-Server/app/main.py: validators, the chat route, the index page *)

(** A Python [str] is a sequence of characters (code points), held here
    as the UTF-8 encoding of the text.  [chars s] cuts [s] before every
    byte that is not a continuation byte [10xxxxxx]: the pieces are the
    encodings of the characters of [s], in order. *)
Definition is_continuation (b : ascii) : bool :=
  let n := nat_of_ascii b in (128 <=? n)%nat && (n <? 192)%nat.

Definition continues (s : string) : bool :=
  match s with
  | EmptyString => false
  | String b _ => is_continuation b
  end.

Fixpoint chars (s : string) : list string :=
  match s with
  | EmptyString => []
  | String b s' =>
      match chars s' with
      | [] => [String b EmptyString]
      | ch :: rest =>
          if continues ch then String b ch :: rest
          else String b EmptyString :: ch :: rest
      end
  end.

(** The string with the given characters: [chars] undone. *)
Fixpoint str_concat (l : list string) : string :=
  match l with
  | [] => EmptyString
  | ch :: rest => ch +:+ str_concat rest
  end.

(** The UTF-8 encoding of a code point. *)
Definition utf8_encode (cp : N) : string :=
  let byte (n : N) := ascii_of_N n in
  let cont (n : N) := byte (0x80 + n mod 64)%N in
  if (cp <? 0x80)%N then String (byte cp) EmptyString
  else if (cp <? 0x800)%N then
    String (byte (0xC0 + cp / 64)%N) (String (cont cp) EmptyString)
  else if (cp <? 0x10000)%N then
    String (byte (0xE0 + cp / 4096)%N)
           (String (cont (cp / 64)%N) (String (cont cp) EmptyString))
  else
    String (byte (0xF0 + cp / 262144)%N)
           (String (cont (cp / 4096)%N)
                   (String (cont (cp / 64)%N) (String (cont cp) EmptyString))).

(** The code points that [str.isspace] and [str.strip] take for white
    space: those of bidirectional type WS, B or S and of category Zs. *)
Definition WHITESPACE : list N :=
  [ 0x9; 0xA; 0xB; 0xC; 0xD; 0x1C; 0x1D; 0x1E; 0x1F; 0x20; 0x85; 0xA0; 0x1680;
    0x2000; 0x2001; 0x2002; 0x2003; 0x2004; 0x2005; 0x2006; 0x2007; 0x2008;
    0x2009; 0x200A; 0x2028; 0x2029; 0x202F; 0x205F; 0x3000 ]%N.

(** [ch.isspace()] for a character [ch]. *)
Definition is_space (ch : string) : bool :=
  existsb (fun cp => String.eqb ch (utf8_encode cp)) WHITESPACE.

(** [s.lstrip()], [s.rstrip()] and [s.strip()], on the characters. *)
Fixpoint lstrip_chars (l : list string) : list string :=
  match l with
  | [] => []
  | ch :: l' => if is_space ch then lstrip_chars l' else l
  end.

Fixpoint rstrip_chars (l : list string) : list string :=
  match l with
  | [] => []
  | ch :: l' =>
      match rstrip_chars l' with
      | [] => if is_space ch then [] else [ch]
      | r => ch :: r
      end
  end.

Definition strip_chars (l : list string) : list string :=
  lstrip_chars (rstrip_chars l).

(** [s.strip()] *)
Definition strip (s : string) : string := str_concat (strip_chars (chars s)).

(** [s.isspace()] or [s == ""]: every character of [s] is white space. *)
Definition all_space (s : string) : bool := forallb is_space (chars s).

(** What [chars] gives: every piece is one byte followed by continuation
    bytes, and every piece but the first begins with a byte that is not a
    continuation byte. *)
Fixpoint all_continuation (s : string) : bool :=
  match s with
  | EmptyString => true
  | String b s' => is_continuation b && all_continuation s'
  end.

Definition chunk_ok (ch : string) : Prop :=
  exists b tl, ch = String b tl /\ all_continuation tl = true.

Definition wf_chunks (l : list string) : Prop :=
  match l with
  | [] => True
  | ch :: rest =>
      chunk_ok ch /\ Forall (fun c => chunk_ok c /\ continues c = false) rest
  end.

(** [ValueError(msg)] *)
Definition ValueError (msg : string) : Exception := mkException PyNone PyNone msg.

(** [HistoryTurn.validate_role] *)
Definition validate_role (v : string) : PyResult string :=
  if negb (existsb (String.eqb v) ["user"; "assistant"])
  then Raise (ValueError ("role must be " +:+ dq +:+ "user" +:+ dq +:+ " or "
                            +:+ dq +:+ "assistant" +:+ dq))
  else Return v.

(** [ChatRequest.validate_message] *)
Definition validate_message (v : string) : PyResult string :=
  let v := strip v in
  if String.eqb v EmptyString then Raise (ValueError "message cannot be empty")
  else Return v.

(** [ChatRequest.validate_history_length] *)
Definition validate_history_length {A : Type} (v : list A) : PyResult (list A) :=
  if (50 <? length v)%nat then Raise (ValueError "History cannot exceed 50 messages")
  else Return v.

(** [HTTPException(status_code=..., detail={"error": ..., "message": ...,
    "retry_after": ...})] *)
Record HTTPException := mkHTTPException {
  http_status : Z;
  http_error : string;
  http_message : string;
  http_retry_after : option Z
}.

Record ChatResponse := mkChatResponse {
  resp_answer : string;
  matchedSections : list string
}.

(** The [except Exception as e] branch of [chat_endpoint] (lines 140-160). *)
Definition chat_endpoint_except (e : Exception) : HTTPException :=
  let error_msg := exc_message e in
  if any_in ["429"; "quota"; "rate limit"] error_msg then
    mkHTTPException 429 "rate_limit" "Too many requests. Please wait." (Some 60%Z)
  else if any_in ["api key"; "authentication"; "unauthorized"] error_msg then
    mkHTTPException 500 "configuration" "Server error. Contact support." None
  else if any_in ["overloaded"; "unavailable"; "timeout"] error_msg then
    mkHTTPException 503 "service_unavailable" "AI service busy. Try again." None
  else if any_in ["safety"; "blocked"; "violation"] error_msg then
    mkHTTPException 400 "content_blocked" "Message blocked by filters." None
  else
    mkHTTPException 500 "internal_server_error" "Unexpected error." None.

(** What [chat_endpoint] answers once [await chat(...)] is over. *)
Definition chat_endpoint_finish (r : PyResult ChatResult)
  : HTTPException + ChatResponse :=
  match r with
  | Return result => inr (mkChatResponse (answer result) (matched_sections result))
  | Raise e => inl (chat_endpoint_except e)
  end.

(** [chat_endpoint] for a request that is served alone: the validated
    message and history go to [chat] as they are. *)
Definition chat_endpoint (provider : nat -> list Content -> Outcome)
    (body_message : string) (body_history : list ChatTurn)
  : M (option (HTTPException + ChatResponse)) :=
  fun w =>
    let history_dicts := map (fun t => mkChatTurn (turn_role t) (turn_text t)) body_history in
    let (r, w') := chat provider history_dicts body_message w in
    (option_map chat_endpoint_finish r, w').

(** [_read_index()]: [index_file] is the text of [static/index.html] when
    the file exists, the second argument and result are [_INDEX_HTML]. *)
Definition _read_index (index_file : option string) (_INDEX_HTML : option string)
  : string * option string :=
  match _INDEX_HTML with
  | None =>
      let html := match index_file with
                  | Some file_text => file_text
                  | None => "<h1>API Server</h1><p>Use POST /api/chat</p>"
                  end in
      (html, Some html)
  | Some html => (html, Some html)
  end.

(** ** More vocabulary for the queue *)

(** The contents of the jobs that a schedule submits, in order. *)
Definition submitted (schedule : list Action) : list (list Content) :=
  omap (fun a => match a with
                 | Submit history current_message =>
                     Some (chat_contents history current_message)
                 | WorkerStep | Cancel _ => None
                 end) schedule.

(** The number of SDK calls made for a job in a log. *)
Definition calls_for (f : nat) (t : list Event) : nat :=
  length (filter (fun job => job = Some f) (invocations_of t)).

(** What the log and the futures say about the jobs [jobs] submitted so far. *)
Definition Inv2 (provider : nat -> list Content -> Outcome)
           (jobs : list (list Content)) (w : World) : Prop :=
  let t := w_trace w in
  let d := length (finished_of t) in
  w_next_future w = length jobs
  /\ Forall (fun job => jobs !! fst job = Some (snd job)) (w_queue w)
  /\ match w_worker w with
     | Running f c a _ =>
         jobs !! f = Some c /\ a <= MAX_RETRIES /\ calls_for f t = a
     | NotStarted => length jobs = 0 /\ calls_for d t = 0
     | Finished => calls_for d t = 0 /\ exists f, EvInvalidState f ∈ t
     | Idle => calls_for d t = 0
     end
  /\ (forall f c, EvInvoke (Some f) c ∈ t -> jobs !! f = Some c)
  /\ (forall f a, EvSetResult f a ∈ t ->
        w_futures w !! f = Some (Resolved a)
        /\ exists k c, k < w_calls w /\ jobs !! f = Some c
                       /\ provider k c = Returned a)
  /\ (forall f exc, EvSetException f exc ∈ t ->
        w_futures w !! f = Some (Failed exc)
        /\ exists k c, k < w_calls w /\ jobs !! f = Some c
                       /\ provider k c = Raised exc)
  /\ (forall f, w_futures w !! f = Some Cancelled <-> EvCancel f ∈ t)
  /\ cancels_ok t
  /\ (forall f, f < d -> 1 <= calls_for f t <= MAX_RETRIES + 1)
  /\ (forall f, d < f -> calls_for f t = 0)
  /\ (forall f, w_next_future w <= f -> w_futures w !! f = None).

(** * Properties *)

(** ** The stable sort *)
Section SortedFacts.
Context {A : Type} (key : A -> nat).

Lemma insert_desc_perm x l : insert_desc key x l ≡ₚ x :: l.
Proof.
  induction l as [|y l IH]; simpl; [done|].
  destruct (key x <? key y)%nat; [|done].
  rewrite IH. apply Permutation_swap.
Qed.

Lemma sorted_reverse_perm l : sorted_reverse key l ≡ₚ l.
Proof.
  induction l as [|x l IH]; simpl; [done|].
  unfold sorted_reverse in *. simpl. by rewrite insert_desc_perm, IH.
Qed.

Lemma descending_cons x l :
  descending key (x :: l) <->
  (forall y, y ∈ l -> key y <= key x) /\ descending key l.
Proof.
  split.
  - intros H. split.
    + intros y [j Hj]%list_elem_of_lookup.
      apply (H 0 (S j) x y); simpl; auto with lia.
    + intros i j a b Hi Hj Hlt. apply (H (S i) (S j) a b); simpl; auto with lia.
  - intros [Hx Hl] i j a b Hi Hj Hlt.
    destruct j as [|j]; [lia|]. simpl in Hj.
    destruct i as [|i]; simpl in Hi.
    + inversion Hi; subst. apply Hx. by eapply list_elem_of_lookup_2.
    + apply (Hl i j a b); auto with lia.
Qed.

Lemma insert_desc_descending x l :
  descending key l -> descending key (insert_desc key x l).
Proof.
  induction l as [|y l IH]; intros Hl; simpl.
  - apply descending_cons. split; [|done]. intros y Hy. inversion Hy.
  - apply descending_cons in Hl as [Hy Hl].
    destruct (key x <? key y)%nat eqn:E.
    + apply Nat.ltb_lt in E. apply descending_cons. split; [|by apply IH].
      intros z Hz. rewrite insert_desc_perm in Hz.
      apply elem_of_cons in Hz as [->|Hz]; [lia|by apply Hy].
    + apply Nat.ltb_ge in E. apply descending_cons. split.
      * intros z Hz. apply elem_of_cons in Hz as [->|Hz]; [done|].
        specialize (Hy z Hz). lia.
      * apply descending_cons. by split.
Qed.

Lemma sorted_reverse_descending l : descending key (sorted_reverse key l).
Proof.
  induction l as [|x l IH]; unfold sorted_reverse in *; simpl.
  - intros i j a b Hi. by destruct i.
  - by apply insert_desc_descending.
Qed.

(** Stability, as an equation: the elements with a given key come out in
    the order they went in. *)
Lemma insert_desc_stable k x l :
  filter (fun y => key y = k) (insert_desc key x l)
  = filter (fun y => key y = k) (x :: l).
Proof.
  induction l as [|y l IH]; simpl; [done|].
  destruct (key x <? key y)%nat eqn:E; [|done].
  apply Nat.ltb_lt in E.
  rewrite filter_cons, IH, !filter_cons.
  repeat case_decide; try done; lia.
Qed.

Lemma sorted_reverse_stable k l :
  filter (fun y => key y = k) (sorted_reverse key l)
  = filter (fun y => key y = k) l.
Proof.
  induction l as [|x l IH]; [done|].
  unfold sorted_reverse in *. simpl.
  rewrite insert_desc_stable, !filter_cons, IH. done.
Qed.

(** Stability, by positions. *)
Lemma before_cons_l (l : list A) a b : b ∈ l -> before (a :: l) a b.
Proof.
  intros (l2 & l3 & ->)%list_elem_of_split. by exists [], l2, l3.
Qed.

Lemma before_cons (l : list A) x a b : before l a b -> before (x :: l) a b.
Proof.
  intros (l1 & l2 & l3 & ->). by exists (x :: l1), l2, l3.
Qed.

Lemma before_cons_inv (l : list A) x a b :
  before (x :: l) a b -> (x = a /\ b ∈ l) \/ before l a b.
Proof.
  intros (l1 & l2 & l3 & H). destruct l1 as [|y l1]; simpl in H.
  - inversion H; subst. left. split; [done|]. set_solver.
  - inversion H; subst. right. by exists l1, l2, l3.
Qed.

Lemma insert_desc_before_new x b l :
  b ∈ l -> key b <= key x -> before (insert_desc key x l) x b.
Proof.
  induction l as [|y l IH]; intros Hb Hk; [inversion Hb|]. simpl.
  destruct (key x <? key y)%nat eqn:E.
  - apply Nat.ltb_lt in E. apply before_cons. apply IH; [|done].
    apply elem_of_cons in Hb as [->|Hb]; [lia|done].
  - by apply before_cons_l.
Qed.

Lemma insert_desc_before_old x a b l :
  before l a b -> before (insert_desc key x l) a b.
Proof.
  induction l as [|y l IH]; intros H; simpl.
  - destruct H as (l1 & l2 & l3 & H). by destruct l1.
  - destruct (key x <? key y)%nat; [|by apply before_cons].
    apply before_cons_inv in H as [[-> Hb]|H].
    + apply before_cons_l. rewrite insert_desc_perm. set_solver.
    + apply before_cons. by apply IH.
Qed.

Lemma sorted_reverse_before l a b :
  before l a b -> key a = key b -> before (sorted_reverse key l) a b.
Proof.
  induction l as [|x l IH]; intros H Hk.
  - destruct H as (l1 & l2 & l3 & H). by destruct l1.
  - unfold sorted_reverse in *. simpl.
    apply before_cons_inv in H as [[-> Hb]|H].
    + apply insert_desc_before_new; [|lia].
      fold (sorted_reverse key l). by rewrite sorted_reverse_perm.
    + apply insert_desc_before_old. by apply IH.
Qed.
End SortedFacts.

Lemma before_lookup {A : Type} (l : list A) a b i j :
  NoDup l -> before l a b -> l !! i = Some a -> l !! j = Some b -> i < j.
Proof.
  intros Hnd (l1 & l2 & l3 & ->) Hi Hj.
  assert (i = length l1) as ->.
  { eapply NoDup_lookup; [done|done|]. by rewrite list_lookup_middle. }
  assert (j = length l1 + S (length l2)) as ->; [|lia].
  eapply NoDup_lookup; [done|done|].
  rewrite lookup_app_r by lia.
  replace (length l1 + S (length l2) - length l1) with (S (length l2)) by lia.
  simpl. by rewrite list_lookup_middle.
Qed.

Lemma lookup_before {A : Type} (l : list A) a b i j :
  l !! i = Some a -> l !! j = Some b -> i < j -> before l a b.
Proof.
  revert i j. induction l as [|x l IH]; intros i j Hi Hj Hlt; [by destruct i|].
  destruct j as [|j]; [lia|]. simpl in Hj. destruct i as [|i]; simpl in Hi.
  - inversion Hi; subst. apply before_cons_l. by eapply list_elem_of_lookup_2.
  - apply before_cons. apply (IH i j); auto with lia.
Qed.

(** ** The context selector *)

Lemma hits_of_count lower s :
  hits_of lower s
  = length (filter (fun kw => str_in kw lower = true) (keywords s)).
Proof.
  unfold hits_of. induction (keywords s) as [|kw kws IH]; [done|].
  cbn [foldr]. rewrite filter_cons, IH. destruct (str_in kw lower) eqn:E.
  - by rewrite decide_True by done.
  - by rewrite decide_False by done.
Qed.

Lemma keywords_lower_case :
  Forall (fun s => Forall (fun kw => str_lower kw = kw) (keywords s)) SECTIONS.
Proof. repeat (constructor; [repeat constructor|]). constructor. Qed.

Lemma titles_NoDup : NoDup (map title SECTIONS).
Proof.
  apply (bool_decide_unpack _). by vm_compute.
Qed.

Lemma matched_of_eq lower :
  matched_of lower
  = sorted_reverse (hits_of lower) (filter (fun s => 0 < hits_of lower s) SECTIONS).
Proof.
  unfold matched_of. f_equal.
  induction SECTIONS as [|s l IH]; [done|].
  cbn [map]. rewrite !filter_cons. cbn [snd].
  case_decide; cbn [map fst]; by rewrite IH.
Qed.

Lemma matched_of_perm lower :
  matched_of lower ≡ₚ filter (fun s => 0 < hits_of lower s) SECTIONS.
Proof. rewrite matched_of_eq. apply sorted_reverse_perm. Qed.

Lemma elem_of_matched_of lower s :
  s ∈ matched_of lower <-> s ∈ SECTIONS /\ 0 < hits_of lower s.
Proof. rewrite matched_of_perm, list_elem_of_filter. tauto. Qed.

Lemma map_fmap {A B : Type} (f : A -> B) (l : list A) : map f l = f <$> l.
Proof. induction l as [|x l IH]; csimpl; [done|]. by rewrite <- IH. Qed.

Lemma sections_NoDup : NoDup SECTIONS.
Proof. eapply NoDup_fmap_1. rewrite <- map_fmap. apply titles_NoDup. Qed.

Lemma title_inj a b : a ∈ SECTIONS -> b ∈ SECTIONS -> title a = title b -> a = b.
Proof.
  intros [i Hi]%list_elem_of_lookup [j Hj]%list_elem_of_lookup Ht.
  assert (i = j) as ->; [|congruence].
  eapply NoDup_lookup; [apply titles_NoDup| |].
  - by rewrite map_fmap, list_lookup_fmap, Hi.
  - by rewrite map_fmap, list_lookup_fmap, Hj, Ht.
Qed.

Lemma before_filter {A : Type} (P : A -> Prop) `{!forall x, Decision (P x)}
      (l : list A) a b :
  before l a b -> P a -> P b -> before (filter P l) a b.
Proof.
  intros (l1 & l2 & l3 & ->) Ha Hb.
  exists (filter P l1), (filter P l2), (filter P l3).
  rewrite filter_app, filter_cons_True, filter_app, filter_cons_True; done.
Qed.

Lemma before_elem_of {A : Type} (l : list A) a b :
  before l a b -> a ∈ l /\ b ∈ l.
Proof. intros (l1 & l2 & l3 & ->). set_solver. Qed.

(** The two cases of [matched if matched else SECTIONS]. *)
Lemma selected_of_cases lower :
  (matched_of lower = [] /\ selected_of lower = SECTIONS
   /\ forall s, s ∈ SECTIONS -> hits_of lower s = 0)
  \/ (matched_of lower <> [] /\ selected_of lower = matched_of lower).
Proof.
  unfold selected_of. destruct (matched_of lower) as [|m ms] eqn:E.
  - left. repeat split. intros s Hs.
    destruct (hits_of lower s) as [|n] eqn:En; [done|].
    assert (s ∈ matched_of lower) as Hin by (apply elem_of_matched_of; split; [done|lia]).
    rewrite E in Hin. inversion Hin.
  - right. by split.
Qed.

Lemma selected_of_sub lower s : s ∈ selected_of lower -> s ∈ SECTIONS.
Proof.
  destruct (selected_of_cases lower) as [(_ & -> & _)|(_ & ->)]; [done|].
  by intros [? _]%elem_of_matched_of.
Qed.

Lemma selected_of_NoDup lower : NoDup (selected_of lower).
Proof.
  destruct (selected_of_cases lower) as [(_ & -> & _)|(_ & ->)].
  - apply sections_NoDup.
  - rewrite matched_of_perm. apply NoDup_filter, sections_NoDup.
Qed.

Lemma selected_of_descending lower : descending (hits_of lower) (selected_of lower).
Proof.
  destruct (selected_of_cases lower) as [(_ & -> & Hz)|(_ & ->)].
  - intros i j a b Hi Hj _.
    rewrite (Hz a), (Hz b); [done| |]; by eapply list_elem_of_lookup_2.
  - rewrite matched_of_eq. apply sorted_reverse_descending.
Qed.

Lemma selected_of_before lower a b :
  before SECTIONS a b -> hits_of lower a = hits_of lower b ->
  a ∈ selected_of lower -> b ∈ selected_of lower ->
  before (selected_of lower) a b.
Proof.
  intros Hab Hk.
  destruct (selected_of_cases lower) as [(_ & -> & _)|(_ & ->)]; [done|].
  intros [_ Ha]%elem_of_matched_of [_ Hb]%elem_of_matched_of.
  rewrite matched_of_eq. apply sorted_reverse_before; [|done].
  by apply before_filter.
Qed.

(** A title of [matched] names the section selected at that position. *)
Lemma matched_lookup query i a :
  a ∈ SECTIONS ->
  matched (get_relevant_context query) !! i = Some (title a) ->
  selected_of (str_lower query) !! i = Some a.
Proof.
  intros Ha. unfold get_relevant_context. cbn [matched].
  rewrite map_fmap, list_lookup_fmap. intros H.
  destruct (selected_of (str_lower query) !! i) as [a'|] eqn:E; [|done].
  simpl in H. f_equal. apply title_inj; [|done|congruence].
  eapply selected_of_sub, list_elem_of_lookup_2, E.
Qed.

(** C4: the sections kept by [get_relevant_context] are exactly those with at
    least one keyword occurring in the lower-cased query (the count is
    case-insensitive on the catalog's keywords), they are ordered by
    decreasing hit count, sections with equal counts keep their catalog
    order, and in [matched] a section with strictly more hits than another
    comes first. *)
Theorem get_relevant_context_ranking (query : string) :
  let lower := str_lower query in
  let hits := hits_of lower in
  let kept := matched_of lower in
  let titles := matched (get_relevant_context query) in
  (forall s, s ∈ SECTIONS ->
     hits s = length (filter (fun kw => str_in (str_lower kw) lower = true)
                             (keywords s)))
  /\ kept ≡ₚ filter (fun s => 0 < hits s) SECTIONS
  /\ descending hits kept
  /\ (forall k, filter (fun s => hits s = k) kept
                = filter (fun s => hits s = k)
                         (filter (fun s => 0 < hits s) SECTIONS))
  /\ (forall a b, before SECTIONS a b -> hits a = hits b ->
                  a ∈ kept -> b ∈ kept -> before kept a b)
  /\ (kept <> [] -> titles = map title kept)
  /\ (forall a b i j, a ∈ SECTIONS -> b ∈ SECTIONS ->
        titles !! i = Some (title a) -> titles !! j = Some (title b) ->
        hits b < hits a -> i < j)
  /\ (forall a b i j, before SECTIONS a b -> hits a = hits b ->
        titles !! i = Some (title a) -> titles !! j = Some (title b) -> i < j).
Proof.
  intros lower hits kept titles. repeat split.
  - intros s Hs. unfold hits. rewrite hits_of_count.
    pose proof keywords_lower_case as Hlc.
    rewrite Forall_forall in Hlc. specialize (Hlc s Hs).
    induction Hlc as [|kw kws Hkw _ IH]; [done|].
    rewrite !filter_cons, Hkw. case_decide; simpl; by rewrite IH.
  - apply matched_of_perm.
  - unfold kept. rewrite matched_of_eq. apply sorted_reverse_descending.
  - intros k. unfold kept. rewrite matched_of_eq. apply sorted_reverse_stable.
  - intros a b Hab Hk [_ Ha]%elem_of_matched_of [_ Hb]%elem_of_matched_of.
    unfold kept. rewrite matched_of_eq. apply sorted_reverse_before; [|done].
    by apply before_filter.
  - intros Hne. subst titles kept lower. unfold get_relevant_context. cbn [matched].
    destruct (selected_of_cases (str_lower query)) as [(? & _)|(_ & ->)]; done.
  - intros a b i j Ha Hb Hi Hj Hlt.
    apply matched_lookup in Hi; [|done]. apply matched_lookup in Hj; [|done].
    destruct (decide (i < j)) as [|Hge]; [done|].
    destruct (decide (i = j)) as [->|Hne].
    + rewrite Hi in Hj. inversion Hj; subst. lia.
    + pose proof (selected_of_descending lower j i b a Hj Hi) as Hd.
      unfold hits in Hlt. lia.
  - intros a b i j Hab Hk Hi Hj.
    destruct (before_elem_of _ _ _ Hab) as [Ha Hb].
    apply matched_lookup in Hi; [|done]. apply matched_lookup in Hj; [|done].
    eapply before_lookup; [apply selected_of_NoDup| |done|done].
    apply selected_of_before; [done|done| |]; by eapply list_elem_of_lookup_2.
Qed.

(** C5: when no section has a keyword hit (the empty query is such a
    query) [get_relevant_context] selects the whole catalog in catalog
    order, so [matched] is as long as the catalog; and [matched] is never
    empty, whatever the query. *)
Theorem get_relevant_context_fallback :
  (forall query,
      (forall s, s ∈ SECTIONS -> hits_of (str_lower query) s = 0) ->
      let ctx := get_relevant_context query in
      selected_of (str_lower query) = SECTIONS
      /\ matched ctx = map title SECTIONS
      /\ full_text ctx = get_full_knowledge_base tt
      /\ length (matched ctx) = length SECTIONS)
  /\ (forall s, s ∈ SECTIONS -> hits_of (str_lower "") s = 0)
  /\ (forall query, matched (get_relevant_context query) <> []).
Proof.
  split; [|split].
  - intros query Hz ctx.
    assert (selected_of (str_lower query) = SECTIONS) as Hsel.
    { destruct (selected_of_cases (str_lower query)) as [(_ & -> & _)|(Hne & _)]; [done|].
      destruct (matched_of (str_lower query)) as [|m ms] eqn:E; [done|].
      assert (m ∈ matched_of (str_lower query)) as Hm by (rewrite E; left).
      apply elem_of_matched_of in Hm as [Hm Hpos]. rewrite (Hz m Hm) in Hpos. lia. }
    subst ctx. unfold get_relevant_context, get_full_knowledge_base.
    cbn [matched full_text]. rewrite Hsel. split; [done|]. split; [done|].
    split; [done|]. by rewrite !length_map.
  - apply Forall_forall. by vm_compute; repeat constructor.
  - intros query. unfold get_relevant_context. cbn [matched].
    destruct (selected_of_cases (str_lower query)) as [(_ & -> & _)|(Hne & ->)].
    + discriminate.
    + destruct (matched_of (str_lower query)); [done|discriminate].
Qed.

Lemma get_relevant_context_ranking_witness :
  let query := "schedule my business team" in
  matched (get_relevant_context query)
  = ["5. Business FAQ"; "3. Business vs Service Provider"; "4. Customer FAQ"]
  /\ 0 < 1.
Proof.
  intros query. split; [by vm_compute|].
  destruct (get_relevant_context_ranking query) as (_ & _ & _ & _ & _ & _ & H & _).
  apply (H sec_business_faq sec_business_vs_provider 0 1).
  - by apply (list_elem_of_lookup_2 _ 4).
  - by apply (list_elem_of_lookup_2 _ 2).
  - by vm_compute.
  - by vm_compute.
  - vm_compute. lia.
Defined.

Lemma get_relevant_context_fallback_witness :
  matched (get_relevant_context "") = map title SECTIONS.
Proof.
  destruct get_relevant_context_fallback as (H1 & H2 & _).
  apply (H1 ""), H2.
Defined.

(** ** Prompt assembly *)

Lemma fold_left_append {A B : Type} (f : A -> B) (l : list A) (init : list B) :
  fold_left (fun acc x => acc ++ [f x]) l init = init ++ map f l.
Proof.
  revert init. induction l as [|x l IH]; intros init; simpl.
  - by rewrite app_nil_r.
  - by rewrite IH, <- app_assoc.
Qed.

Lemma chat_contents_eq history current_message :
  chat_contents history current_message
  = [mkContent "user" (_build_system_prompt tt); mkContent "model" GROUNDING_ACK]
    ++ map (fun turn => mkContent (history_role turn) (turn_text turn)) history
    ++ [mkContent "user" current_message].
Proof.
  unfold chat_contents.
  rewrite (fold_left_append (fun turn => mkContent (history_role turn) (turn_text turn))).
  by rewrite <- app_assoc.
Qed.

(** The log only grows, and the first thing the worker does with a job is
    to call the SDK with the contents of that job. *)
Lemma retry_loop_extends provider c attempts :
  forall last_err w,
    exists evs,
      w_trace (snd (retry_loop provider c attempts last_err w)) = w_trace w ++ evs.
Proof.
  induction attempts as [|a attempts IH]; intros last_err w.
  - exists []. by rewrite app_nil_r.
  - cbn [retry_loop]. unfold attempt_once, generate_content, sleep, modify.
    unfold mbind, M_bind, mret, M_ret.
    destruct (provider (w_calls w) c) as [response_text|exc].
    + cbn [snd w_trace record_call]. by eexists.
    + destruct (is_429 (status_of exc) && (a <? MAX_RETRIES)%nat).
      * destruct (IH (Some exc) (emit (EvSleep (BASE_DELAY_S * 2 ^ Z.of_nat a))
                                      (record_call c w))) as [evs Hevs].
        rewrite Hevs. cbn [w_trace emit record_call].
        rewrite <- !app_assoc. by eexists.
      * cbn [snd w_trace record_call]. by eexists.
Qed.

Lemma settle_extends f r w :
  exists evs, w_trace (snd (settle f r w)) = w_trace w ++ evs.
Proof.
  unfold settle. destruct (w_futures w !! f) as [[]|]; try destruct r;
    cbn [snd w_trace set_worker emit set_future]; try by eexists.
  all: exists []; by rewrite app_nil_r.
Qed.

Lemma worker_iteration_first_call provider w f c rest :
  w_worker w = Idle -> w_queue w = (f, c) :: rest ->
  exists evs,
    w_trace (snd (worker_iteration provider w))
    = w_trace w ++ EvInvoke (Some f) c :: evs.
Proof.
  intros Hw Hq. unfold worker_iteration. rewrite Hw, Hq.
  set (w1 := set_worker (Running f c 0 None) (set_queue rest w)).
  unfold _call_with_retry. change (seq 0 (MAX_RETRIES + 1)) with (0 :: seq 1 4).
  generalize (seq 1 4). intros later. cbn [retry_loop]. unfold mbind, M_bind.
  assert (exists evs, w_trace (snd (attempt_once provider c 0 w1))
                      = w_trace w ++ EvInvoke (Some f) c :: evs) as [evs0 H0].
  { unfold attempt_once, generate_content, sleep, modify.
    unfold mbind, M_bind, mret, M_ret.
    destruct (provider (w_calls w1) c) as [response_text|exc];
      [|destruct (is_429 (status_of exc) && (0 <? MAX_RETRIES)%nat)];
      cbn; rewrite <- ?app_assoc; by eexists. }
  destruct (attempt_once provider c 0 w1) as [[response_text|exc|exc] w2];
    cbn [snd] in H0; unfold mret, M_ret; cbv beta iota zeta.
  - destruct (settle_extends f (Return response_text) w2) as [evs Hs].
    destruct (settle f (Return response_text) w2) as [[] w3]. cbn [snd] in *.
    rewrite Hs, H0, <- app_assoc. by eexists.
  - destruct (retry_loop_extends provider c later (Some exc) w2) as [evs1 H1].
    destruct (retry_loop provider c later (Some exc) w2) as [r w3].
    cbn [snd] in H1. destruct (settle_extends f r w3) as [evs Hs].
    destruct (settle f r w3) as [[] w4]. cbn [snd] in *.
    rewrite Hs, H1, H0, <- !app_assoc. by eexists.
  - destruct (settle_extends f (Raise exc) w2) as [evs Hs].
    destruct (settle f (Raise exc) w2) as [[] w3]. cbn [snd] in *.
    rewrite Hs, H0, <- app_assoc. by eexists.
Qed.

(** C6: the turns that [chat] puts on the queue, and with which the
    provider is called, are, in order, the "user" turn with the system
    prompt and the knowledge base, the "model" turn with the fixed
    acknowledgment, the history turns in order with "assistant" renamed to
    "model" and "user" kept, and the "user" turn with the current message:
    [2 + length history + 1] turns in all. *)
Theorem chat_contents_shape (history : list ChatTurn) (current_message : string) :
  chat_contents history current_message
  = [mkContent "user" (PROMPT_HEAD +:+ get_full_knowledge_base tt +:+ PROMPT_TAIL);
     mkContent "model" GROUNDING_ACK]
    ++ map (fun turn => mkContent (history_role turn) (turn_text turn)) history
    ++ [mkContent "user" current_message]
  /\ (forall turn, turn_role turn = "assistant" -> history_role turn = "model")
  /\ (forall turn, turn_role turn = "user" -> history_role turn = "user")
  /\ length (chat_contents history current_message) = 2 + length history + 1
  /\ (forall w,
        w_queue (snd (chat_enqueue history current_message w))
        = w_queue w ++ [(w_next_future w, chat_contents history current_message)])
  /\ (forall provider,
        exists evs,
          w_trace (snd (chat provider history current_message init))
          = EvPut 0 :: EvInvoke (Some 0) (chat_contents history current_message)
              :: evs).
Proof.
  split; [apply chat_contents_eq|]. repeat split.
  - intros turn H. unfold history_role. by rewrite H.
  - intros turn H. unfold history_role. by rewrite H.
  - rewrite chat_contents_eq. rewrite !length_app, length_map. simpl. lia.
  - intros w. unfold chat_enqueue, submit, _ensure_worker, create_future, q_put, modify.
    unfold mbind, M_bind, mret, M_ret. by destruct (w_worker w).
  - intros provider. unfold chat.
    set (w1 := snd (chat_enqueue history current_message init)).
    assert (chat_enqueue history current_message init
            = (get_relevant_context current_message, 0, w1)) as -> by done.
    change (length (w_queue w1)) with 1. cbn [drain]. unfold mbind, M_bind.
    destruct (worker_iteration_first_call provider w1 0
                (chat_contents history current_message) []) as [evs Hevs];
      [done|done|].
    destruct (worker_iteration provider w1) as [b w2]. cbn [snd] in *.
    unfold mret, M_ret. cbn [snd]. rewrite Hevs. by eexists.
Qed.

Lemma chat_contents_shape_witness :
  history_role (mkChatTurn "assistant" "Hello, how can I help?") = "model"
  /\ length (chat_contents [] "hi") = 3.
Proof.
  split.
  - by apply (chat_contents_shape [] "hi").
  - apply (chat_contents_shape [] "hi").
Defined.

(** C7, as stated, fails: for a message that selects one section only, the
    first turn sent to the provider still carries the text of a section
    the selector did not choose. *)
Lemma chat_grounding_counterexample :
  let current_message := "How do I delete account?" in
  let ctx := get_relevant_context current_message in
  matched ctx = ["7. Account Management"]
  /\ exists first rest,
       chat_contents [] current_message = first :: rest
       /\ text first <> PROMPT_HEAD +:+ full_text ctx +:+ PROMPT_TAIL
       /\ str_in (content sec_overview) (text first) = true
       /\ str_in (content sec_overview) (full_text ctx) = false.
Proof.
  intros current_message ctx. split; [by vm_compute|].
  eexists _, _. split; [reflexivity|]. cbn [text]. split; [|split].
  - apply String.eqb_neq. by vm_compute.
  - by vm_compute.
  - by vm_compute.
Qed.

(** C7, amended: the reference material sent to the provider is the whole
    knowledge base, every section in catalog order, whatever the message
    and the history; the selector's output for the message only supplies
    the [matched_sections] of the result. *)
Theorem chat_grounding_full_corpus (history : list ChatTurn) (current_message : string) :
  (exists rest,
      chat_contents history current_message
      = mkContent "user"
          (PROMPT_HEAD +:+ str_join KB_SEPARATOR (map fmt_section SECTIONS)
                       +:+ PROMPT_TAIL) :: rest
      /\ rest = mkContent "model" GROUNDING_ACK
                :: map (fun turn => mkContent (history_role turn) (turn_text turn)) history
                ++ [mkContent "user" current_message])
  /\ (forall w,
        fst (fst (chat_enqueue history current_message w))
        = get_relevant_context current_message)
  /\ (forall w future w',
        chat_await (fst (fst (chat_enqueue history current_message w))) future w'
        = match w_futures w' !! future with
          | Some (Resolved answer) =>
              Some (Return (mkChatResult answer
                              (matched (get_relevant_context current_message))))
          | Some (Failed exc) => Some (Raise exc)
          | _ => None
          end).
Proof.
  split; [|split].
  - eexists. split; [|reflexivity]. by rewrite chat_contents_eq.
  - intros w. unfold chat_enqueue, submit, _ensure_worker, create_future, q_put, modify.
    unfold mbind, M_bind, mret, M_ret. by destruct (w_worker w).
  - intros w future w'.
    unfold chat_enqueue, submit, _ensure_worker, create_future, q_put, modify.
    unfold mbind, M_bind, mret, M_ret. by destruct (w_worker w).
Qed.

(** C10: the [matched_sections] of a result of [chat] are those of the
    selector run on the current message; two calls with the same message
    return the same list, whatever their histories, the state of the queue
    when they were made and the provider's answers. *)
Theorem chat_matched_sections_ignore_history
    (history1 history2 : list ChatTurn) (current_message : string)
    (w1 w2 w1' w2' : World) (r1 r2 : ChatResult) :
  (let '(ctx, future) := fst (chat_enqueue history1 current_message w1) in
   chat_await ctx future w1') = Some (Return r1) ->
  (let '(ctx, future) := fst (chat_enqueue history2 current_message w2) in
   chat_await ctx future w2') = Some (Return r2) ->
  matched_sections r1 = matched_sections r2
  /\ matched_sections r1 = matched (get_relevant_context current_message).
Proof.
  assert (forall history w w' r,
             (let '(ctx, future) := fst (chat_enqueue history current_message w) in
              chat_await ctx future w') = Some (Return r) ->
             matched_sections r = matched (get_relevant_context current_message)) as H.
  { intros history w w' r.
    unfold chat_enqueue, submit, _ensure_worker, create_future, q_put, modify.
    unfold mbind, M_bind, mret, M_ret.
    destruct (w_worker w); cbn [fst]; unfold chat_await;
      match goal with
      | |- context [w_futures w' !! ?f] => destruct (w_futures w' !! f) as [[]|]
      end; try done.
    all: intros Hr; injection Hr as Hr; by rewrite <- Hr. }
  intros H1 H2. apply H in H1, H2. split; congruence.
Qed.

Lemma chat_matched_sections_ignore_history_witness :
  let provider := fun (n : nat) (_ : list Content) =>
                    Returned (if (n =? 0)%nat then "first" else "second") in
  let w1 := init in
  let w1' := run provider [Submit [] "book"; WorkerStep; WorkerStep] w1 in
  let w2 := w1' in
  let history2 := [mkChatTurn "user" "book"; mkChatTurn "assistant" "first"] in
  let w2' := run provider [Submit history2 "book"; WorkerStep; WorkerStep] w2 in
  let r1 := mkChatResult "first" ["4. Customer FAQ"] in
  let r2 := mkChatResult "second" ["4. Customer FAQ"] in
  matched_sections r1 = matched_sections r2
  /\ matched_sections r1 = matched (get_relevant_context "book").
Proof.
  intros provider w1 w1' w2 history2 w2' r1 r2.
  apply (chat_matched_sections_ignore_history [] history2 "book" w1 w2 w1' w2').
  - by vm_compute.
  - by vm_compute.
Defined.

(** ** The retry loop *)

Lemma backoff_doubles attempt :
  backoff attempt = (BASE_DELAY_S * 2 ^ Z.of_nat attempt)%Z
  /\ backoff (S attempt) = (2 * backoff attempt)%Z
  /\ (backoff attempt < backoff (S attempt))%Z.
Proof.
  unfold backoff, BASE_DELAY_S. rewrite Nat2Z.inj_succ, Z.pow_succ_r by lia.
  assert (0 < 2 ^ Z.of_nat attempt)%Z by (apply Z.pow_pos_nonneg; lia). lia.
Qed.

Lemma delays_of_retry_events job contents first K :
  delays_of (retry_events job contents first K) = map backoff (seq first K).
Proof.
  revert first. induction K as [|K IH]; intros first; [done|].
  unfold retry_events, delays_of in *. simpl. by rewrite IH.
Qed.

Lemma invocations_of_retry_events job contents first K :
  invocations_of (retry_events job contents first K) = replicate K job.
Proof.
  revert first. induction K as [|K IH]; intros first; [done|].
  unfold retry_events, invocations_of in *. simpl. by rewrite IH.
Qed.

Lemma retry_events_S job contents first K :
  retry_events job contents first (S K)
  = EvInvoke job contents :: EvSleep (backoff first)
      :: retry_events job contents (S first) K.
Proof. done. Qed.

Section RetryFacts.
Context (provider : nat -> list Content -> Outcome).
Implicit Types (w : World) (contents : list Content) (excs : list Exception).

Lemma attempt_once_returned contents attempt w response_text :
  provider (w_calls w) contents = Returned response_text ->
  attempt_once provider contents attempt w
  = (Break response_text, record_call contents w).
Proof.
  intros H. unfold attempt_once, generate_content, mbind, M_bind. by rewrite H.
Qed.

Lemma attempt_once_backoff contents attempt w exc :
  provider (w_calls w) contents = Raised exc ->
  is_429 (status_of exc) = true -> attempt < MAX_RETRIES ->
  attempt_once provider contents attempt w
  = (Continue exc, emit (EvSleep (backoff attempt)) (record_call contents w)).
Proof.
  intros H H429 Hlt. unfold attempt_once, generate_content, mbind, M_bind.
  rewrite H, H429. apply Nat.ltb_lt in Hlt. by rewrite Hlt.
Qed.

Lemma attempt_once_reraise contents attempt w exc :
  provider (w_calls w) contents = Raised exc ->
  is_429 (status_of exc) = false \/ MAX_RETRIES <= attempt ->
  attempt_once provider contents attempt w
  = (Reraise exc, record_call contents w).
Proof.
  intros H Hor. unfold attempt_once, generate_content, mbind, M_bind.
  rewrite H. destruct Hor as [->|Hge]; [done|].
  apply Nat.ltb_ge in Hge. rewrite Hge. by rewrite andb_false_r.
Qed.

(** As long as the calls fail with status 429 and retries remain, the loop
    sleeps and goes on. *)
Lemma retry_loop_backoffs contents excs :
  forall first n last_err w,
    length excs <= n -> first + length excs <= MAX_RETRIES ->
    Forall (fun exc => is_429 (status_of exc) = true) excs ->
    (forall i exc, excs !! i = Some exc ->
                   provider (w_calls w + i) contents = Raised exc) ->
    retry_loop provider contents (seq first n) last_err w
    = retry_loop provider contents
        (seq (first + length excs) (n - length excs))
        (from_option Some last_err (last excs))
        (logged w (length excs)
                (retry_events (current_job w) contents first (length excs))).
Proof.
  induction excs as [|exc excs IH]; intros first n last_err w Hn Hfirst H429 Hp.
  - unfold logged. simpl. rewrite !Nat.add_0_r, Nat.sub_0_r, app_nil_r. by destruct w.
  - simpl in Hn, Hfirst. destruct n as [|n]; [lia|].
    apply Forall_cons in H429 as [Hexc H429].
    cbn [seq retry_loop]. unfold mbind at 1, M_bind at 1.
    rewrite (attempt_once_backoff _ _ _ exc); [|by rewrite <- (Hp 0 exc), Nat.add_0_r|done|lia].
    rewrite (IH (S first) n); [|lia|lia|done|].
    + rewrite last_cons. cbn [length].
      replace (S first + length excs) with (first + S (length excs)) by lia.
      replace (S n - S (length excs)) with (n - length excs) by lia.
      f_equal.
      * by destruct (last excs).
      * rewrite retry_events_S. unfold logged, emit, record_call, current_job. simpl.
        f_equal; [lia|]. by rewrite <- !app_assoc.
    + intros i e Hi. simpl. rewrite <- (Hp (S i) e Hi). f_equal. lia.
Qed.

Lemma settle_pending future r w :
  w_futures w !! future = Some Pending ->
  settle future r w
  = (tt, match r with
         | Return answer =>
             set_worker Idle (emit (EvSetResult future answer)
                                   (set_future future (Resolved answer) w))
         | Raise exc =>
             set_worker Idle (emit (EvSetException future exc)
                                   (set_future future (Failed exc) w))
         end).
Proof. intros H. unfold settle. rewrite H. by destruct r. Qed.

(** What [worker_iteration] does with the job at the head of the queue,
    in terms of the result of [_call_with_retry]. *)
Lemma worker_iteration_head future contents rest w r calls events :
  w_worker w = Idle -> w_queue w = (future, contents) :: rest ->
  w_futures w !! future = Some Pending ->
  (forall w0, w_calls w0 = w_calls w -> current_job w0 = Some future ->
     _call_with_retry provider contents w0 = (r, logged w0 calls events)) ->
  let w' := snd (worker_iteration provider w) in
  w_futures w' !! future
  = Some (match r with Return a => Resolved a | Raise exc => Failed exc end)
  /\ w_calls w' = w_calls w + calls
  /\ w_trace w'
     = w_trace w ++ events
         ++ [match r with
             | Return a => EvSetResult future a
             | Raise exc => EvSetException future exc
             end]
  /\ w_queue w' = rest /\ w_worker w' = Idle.
Proof.
  intros Hw Hq Hf Hcall w'. subst w'. unfold worker_iteration.
  rewrite Hw, Hq. unfold mbind, M_bind.
  rewrite Hcall by done. rewrite settle_pending by done.
  unfold logged. destruct r; cbn; rewrite ?lookup_insert_eq, <- ?app_assoc; done.
Qed.

Lemma call_with_retry_recovers contents excs response_text w :
  length excs <= MAX_RETRIES ->
  Forall (fun exc => is_429 (status_of exc) = true) excs ->
  (forall i exc, excs !! i = Some exc ->
                 provider (w_calls w + i) contents = Raised exc) ->
  provider (w_calls w + length excs) contents = Returned response_text ->
  _call_with_retry provider contents w
  = (Return response_text,
     logged w (length excs + 1)
            (retry_events (current_job w) contents 0 (length excs)
               ++ [EvInvoke (current_job w) contents])).
Proof.
  intros Hlen H429 Hp Hok. unfold _call_with_retry.
  rewrite (retry_loop_backoffs contents excs); [|unfold MAX_RETRIES in *; lia|done|done|done].
  unfold MAX_RETRIES in *.
  destruct (4 + 1 - length excs) as [|m] eqn:E; [lia|].
  cbn [seq retry_loop]. unfold mbind, M_bind.
  rewrite (attempt_once_returned _ _ _ response_text) by done.
  unfold mret, M_ret, logged, record_call, current_job. simpl.
  do 2 f_equal; [lia|]. by rewrite <- app_assoc.
Qed.

Lemma call_with_retry_exhausted contents (errs : nat -> Exception) w :
  (forall i, i <= MAX_RETRIES ->
     provider (w_calls w + i) contents = Raised (errs i)
     /\ is_429 (status_of (errs i)) = true) ->
  _call_with_retry provider contents w
  = (Raise (errs MAX_RETRIES),
     logged w (MAX_RETRIES + 1)
            (retry_events (current_job w) contents 0 MAX_RETRIES
               ++ [EvInvoke (current_job w) contents])).
Proof.
  intros Hp. unfold _call_with_retry.
  rewrite (retry_loop_backoffs contents (map errs (seq 0 MAX_RETRIES))).
  - rewrite length_map, length_seq. unfold MAX_RETRIES in *.
    cbn [seq retry_loop Nat.add Nat.sub]. unfold mbind, M_bind.
    rewrite (attempt_once_reraise _ _ _ (errs 4)).
    + unfold mret, M_ret, logged, record_call, current_job. simpl.
      do 2 f_equal; [lia|]. by rewrite <- !app_assoc.
    + simpl. apply (Hp 4). lia.
    + right. unfold MAX_RETRIES. lia.
  - rewrite length_map, length_seq. unfold MAX_RETRIES. lia.
  - rewrite length_map, length_seq. lia.
  - rewrite map_fmap. apply Forall_fmap, Forall_forall.
    intros i Hi%elem_of_seq. simpl. apply Hp. lia.
  - intros i exc. rewrite map_fmap, list_lookup_fmap.
    destruct (seq 0 MAX_RETRIES !! i) as [j|] eqn:E; [|done].
    apply lookup_seq in E as [-> Hi]. simpl. intros [= <-].
    apply Hp. lia.
Qed.

Lemma call_with_retry_fatal contents exc w :
  provider (w_calls w) contents = Raised exc ->
  is_429 (status_of exc) = false ->
  _call_with_retry provider contents w
  = (Raise exc, logged w 1 [EvInvoke (current_job w) contents]).
Proof.
  intros Hp Hno. unfold _call_with_retry, MAX_RETRIES.
  cbn [seq retry_loop Nat.add]. unfold mbind, M_bind.
  rewrite (attempt_once_reraise _ _ _ exc) by auto.
  unfold mret, M_ret, logged, record_call. simpl. do 2 f_equal. lia.
Qed.

(** C2: a job whose SDK call fails [K <= 4] times with status 429 and then
    returns is resolved with the returned text; the SDK is called [K + 1]
    times, all for this job; after the failed attempt numbered [attempt]
    the worker sleeps [BASE_DELAY_S * 2 ^ attempt] seconds, so each delay
    is twice the one before and strictly larger. *)
Theorem worker_iteration_recovers
    (future : nat) contents (rest : list (nat * list Content))
    excs (response_text : string) w :
  w_worker w = Idle -> w_queue w = (future, contents) :: rest ->
  w_futures w !! future = Some Pending ->
  length excs <= MAX_RETRIES ->
  Forall (fun exc => is_429 (status_of exc) = true) excs ->
  (forall i exc, excs !! i = Some exc ->
                 provider (w_calls w + i) contents = Raised exc) ->
  provider (w_calls w + length excs) contents = Returned response_text ->
  let K := length excs in
  let w' := snd (worker_iteration provider w) in
  let events :=
    retry_events (Some future) contents 0 K ++ [EvInvoke (Some future) contents] in
  w_futures w' !! future = Some (Resolved response_text)
  /\ w_calls w' = w_calls w + (K + 1)
  /\ w_trace w' = w_trace w ++ events ++ [EvSetResult future response_text]
  /\ invocations_of events = replicate (K + 1) (Some future)
  /\ delays_of events = map backoff (seq 0 K)
  /\ (forall attempt,
        backoff attempt = (BASE_DELAY_S * 2 ^ Z.of_nat attempt)%Z
        /\ backoff (S attempt) = (2 * backoff attempt)%Z
        /\ (backoff attempt < backoff (S attempt))%Z).
Proof.
  intros Hw Hq Hf Hlen H429 Hp Hok K w' events.
  destruct (worker_iteration_head future contents rest w (Return response_text)
              (K + 1) events Hw Hq Hf) as (H1 & H2 & H3 & _).
  { intros w0 Hc Hj. subst events K. rewrite <- Hj.
    apply call_with_retry_recovers; rewrite ?Hc; done. }
  split; [done|]. split; [done|]. split; [done|]. split; [|split].
  - subst events. unfold invocations_of. rewrite omap_app.
    fold (invocations_of (retry_events (Some future) contents 0 K)).
    rewrite invocations_of_retry_events. simpl.
    by rewrite Nat.add_1_r, replicate_S_end.
  - subst events. unfold delays_of. rewrite omap_app.
    fold (delays_of (retry_events (Some future) contents 0 K)).
    rewrite delays_of_retry_events. simpl. by rewrite app_nil_r.
  - apply backoff_doubles.
Qed.

(** C3: a job whose SDK call fails with status 429 on every attempt is
    failed after exactly [MAX_RETRIES + 1 = 5] calls, four back-off sleeps
    between them, and the exception set on its future is the one raised
    by the last call. *)
Theorem worker_iteration_exhausts
    (future : nat) contents (rest : list (nat * list Content))
    (errs : nat -> Exception) w :
  w_worker w = Idle -> w_queue w = (future, contents) :: rest ->
  w_futures w !! future = Some Pending ->
  (forall i, i <= MAX_RETRIES ->
     provider (w_calls w + i) contents = Raised (errs i)
     /\ is_429 (status_of (errs i)) = true) ->
  let w' := snd (worker_iteration provider w) in
  let events :=
    retry_events (Some future) contents 0 MAX_RETRIES
      ++ [EvInvoke (Some future) contents] in
  w_futures w' !! future = Some (Failed (errs MAX_RETRIES))
  /\ w_calls w' = w_calls w + 5
  /\ w_trace w' = w_trace w ++ events ++ [EvSetException future (errs MAX_RETRIES)]
  /\ invocations_of events = replicate 5 (Some future)
  /\ delays_of events = [2; 4; 8; 16]%Z.
Proof.
  intros Hw Hq Hf Hp w' events.
  destruct (worker_iteration_head future contents rest w (Raise (errs MAX_RETRIES))
              (MAX_RETRIES + 1) events Hw Hq Hf) as (H1 & H2 & H3 & _).
  { intros w0 Hc Hj. subst events. rewrite <- Hj.
    apply call_with_retry_exhausted. by rewrite Hc. }
  done.
Qed.

(** C9: a job whose first SDK call fails with a status other than 429 is
    failed after that single call, without any sleep, and the exception
    set on its future, which the caller's [await] raises, is that one. *)
Theorem worker_iteration_no_retry
    (future : nat) contents (rest : list (nat * list Content))
    (exc : Exception) w :
  w_worker w = Idle -> w_queue w = (future, contents) :: rest ->
  w_futures w !! future = Some Pending ->
  provider (w_calls w) contents = Raised exc ->
  is_429 (status_of exc) = false ->
  let w' := snd (worker_iteration provider w) in
  w_futures w' !! future = Some (Failed exc)
  /\ w_calls w' = w_calls w + 1
  /\ w_trace w'
     = w_trace w ++ [EvInvoke (Some future) contents; EvSetException future exc]
  /\ (forall ctx, chat_await ctx future w' = Some (Raise exc)).
Proof.
  intros Hw Hq Hf Hp Hno w'.
  destruct (worker_iteration_head future contents rest w (Raise exc)
              1 [EvInvoke (Some future) contents] Hw Hq Hf) as (H1 & H2 & H3 & _).
  { intros w0 Hc Hj. rewrite <- Hj.
    apply call_with_retry_fatal; by rewrite ?Hc. }
  split; [done|]. split; [done|]. split; [done|].
  intros ctx. unfold chat_await. subst w'. by rewrite H1.
Qed.
End RetryFacts.

Lemma worker_iteration_recovers_witness :
  let exc := mkException (PyInt 429) PyNone "429 RESOURCE_EXHAUSTED" in
  let provider := fun (n : nat) (_ : list Content) =>
                    if (n <? 2)%nat then Raised exc else Returned "ok" in
  let w := snd (chat_enqueue [] "hi" init) in
  let w' := snd (worker_iteration provider w) in
  w_futures w' !! 0 = Some (Resolved "ok")
  /\ w_calls w' = 3
  /\ delays_of (w_trace w') = [2; 4]%Z.
Proof.
  intros exc provider w w'.
  destruct (worker_iteration_recovers provider 0 (chat_contents [] "hi") []
              [exc; exc] "ok" w) as (H1 & H2 & H3 & _).
  - reflexivity.
  - reflexivity.
  - by vm_compute.
  - unfold MAX_RETRIES. simpl. lia.
  - repeat constructor.
  - intros [|[|i]] e; simpl; intros [= <-]; reflexivity.
  - reflexivity.
  - split; [exact H1|]. split; [exact H2|]. by vm_compute.
Defined.

Lemma worker_iteration_exhausts_witness :
  let errs := fun i : nat =>
                mkException PyNone (PyInt 429)
                  (if (i =? 4)%nat then "429 last" else "429 earlier") in
  let provider := fun (n : nat) (_ : list Content) => Raised (errs n) in
  let w := snd (chat_enqueue [] "hi" init) in
  let w' := snd (worker_iteration provider w) in
  w_futures w' !! 0 = Some (Failed (mkException PyNone (PyInt 429) "429 last"))
  /\ w_calls w' = 5.
Proof.
  intros errs provider w w'.
  destruct (worker_iteration_exhausts provider 0 (chat_contents [] "hi") []
              errs w) as (H1 & H2 & _).
  - reflexivity.
  - reflexivity.
  - by vm_compute.
  - intros i Hi. split; reflexivity.
  - split; [exact H1|exact H2].
Defined.

Lemma worker_iteration_no_retry_witness :
  let exc := mkException (PyInt 401) PyNone "401 UNAUTHENTICATED: API key not valid" in
  let provider := fun (n : nat) (_ : list Content) => Raised exc in
  let w := snd (chat_enqueue [] "hi" init) in
  let w' := snd (worker_iteration provider w) in
  classify (exc_message exc) = configuration
  /\ w_futures w' !! 0 = Some (Failed exc)
  /\ w_calls w' = 1.
Proof.
  intros exc provider w w'. split; [by vm_compute|].
  destruct (worker_iteration_no_retry provider 0 (chat_contents [] "hi") []
              exc w) as (H1 & H2 & _).
  - reflexivity.
  - reflexivity.
  - by vm_compute.
  - reflexivity.
  - reflexivity.
  - split; [exact H1|exact H2].
Defined.

(** C8 at a failure that says 429 and quota in its message, which
    [chat_endpoint] classifies as a rate limit, but that has no [code] or
    [status_code] attribute: the worker fails the job on the first attempt,
    without sleeping or calling the SDK again. *)
Lemma quota_failure_not_retried :
  let exc := mkException PyNone PyNone "429 RESOURCE_EXHAUSTED. Resource has been exhausted (e.g. check quota)." in
  let provider := fun (n : nat) (_ : list Content) => Raised exc in
  let w := snd (chat_enqueue [] "hi" init) in
  let w' := snd (worker_iteration provider w) in
  classify (exc_message exc) = rate_limit
  /\ is_429 (status_of exc) = false
  /\ w_futures w' !! 0 = Some (Failed exc)
  /\ w_calls w' = 1
  /\ delays_of (w_trace w') = [].
Proof. by vm_compute. Qed.

(** ** The queue and its single worker *)

Lemma snoc_split {A : Type} (t : list A) e t1 x t2 :
  t ++ [e] = t1 ++ x :: t2 ->
  (t1 = t /\ x = e /\ t2 = []) \/ (exists t2', t2 = t2' ++ [e] /\ t = t1 ++ x :: t2').
Proof.
  destruct t2 as [|y t2 _] using rev_ind; intros H.
  - left. apply app_inj_tail in H as [-> ->]. done.
  - right. exists t2. change (t ++ [e] = t1 ++ (x :: t2) ++ [y]) in H.
    rewrite app_assoc in H. apply app_inj_tail in H as [-> ->]. done.
Qed.

Lemma puts_of_app t1 t2 : puts_of (t1 ++ t2) = puts_of t1 ++ puts_of t2.
Proof. apply omap_app. Qed.

Lemma settled_of_app t1 t2 : settled_of (t1 ++ t2) = settled_of t1 ++ settled_of t2.
Proof. apply omap_app. Qed.

Lemma finished_of_app t1 t2 :
  finished_of (t1 ++ t2) = finished_of t1 ++ finished_of t2.
Proof. apply omap_app. Qed.

Lemma elem_of_settled_of i t :
  i ∈ settled_of t
  <-> (exists a, EvSetResult i a ∈ t) \/ (exists exc, EvSetException i exc ∈ t).
Proof.
  unfold settled_of. rewrite list_elem_of_omap. split.
  - intros ([] & Hin & Heq); try done; injection Heq as ->; eauto.
  - intros [[a Hin]|[exc Hin]]; eexists; (split; [exact Hin|done]).
Qed.

Lemma elem_of_finished_of i t :
  i ∈ finished_of t
  <-> (exists a, EvSetResult i a ∈ t) \/ (exists exc, EvSetException i exc ∈ t)
      \/ EvInvalidState i ∈ t.
Proof.
  unfold finished_of. rewrite list_elem_of_omap. split.
  - intros ([] & Hin & Heq); try done; injection Heq as ->; eauto.
  - intros [[a Hin]|[[exc Hin]|Hin]]; eexists; (split; [exact Hin|done]).
Qed.

Lemma settled_finished i t : i ∈ settled_of t -> i ∈ finished_of t.
Proof. rewrite elem_of_settled_of, elem_of_finished_of. tauto. Qed.

Lemma seq_prefix (l1 l2 : list nat) d :
  l1 ++ l2 = seq 0 d -> l1 = seq 0 (length l1).
Proof.
  intros H. assert (length l1 <= d) as Hle.
  { apply (f_equal length) in H. rewrite length_app, length_seq in H. lia. }
  assert (l1 = take (length l1) (seq 0 d)) as Ht
    by (by rewrite <- H, take_app_length).
  rewrite take_seq in Ht.
  by replace (length l1 `min` d) with (length l1) in Ht by lia.
Qed.

Lemma invokes_ok_nil : invokes_ok [].
Proof. intros t1 t2 job c H. by destruct t1. Qed.

Lemma invokes_ok_snoc t e :
  invokes_ok t ->
  (forall job c, e = EvInvoke job c -> job = Some (length (finished_of t))) ->
  invokes_ok (t ++ [e]).
Proof.
  intros Ht He t1 t2 job c H.
  apply snoc_split in H as [(-> & <- & _)|(t2' & _ & ->)].
  - by apply (He job c).
  - by apply (Ht t1 t2' job c).
Qed.

Lemma cancels_ok_nil : cancels_ok [].
Proof. intros t1 t2 f H. by destruct t1. Qed.

Lemma cancels_ok_snoc t e :
  cancels_ok t ->
  (forall f, e = EvInvalidState f -> EvCancel f ∈ t) ->
  cancels_ok (t ++ [e]).
Proof.
  intros Ht He t1 t2 f H.
  apply snoc_split in H as [(-> & <- & _)|(t2' & _ & ->)].
  - by apply He.
  - by apply (Ht t1 t2' f).
Qed.

Lemma Inv_init : Inv init.
Proof.
  unfold Inv. simpl. repeat split; try done.
  - apply invokes_ok_nil.
  - intros f Hf. lia.
Qed.

Lemma chat_enqueue_world history current_message w :
  snd (chat_enqueue history current_message w)
  = mkWorld (w_queue w ++ [(w_next_future w, chat_contents history current_message)])
            (match w_worker w with
             | NotStarted | Finished => Idle
             | k => k
             end)
            (<[w_next_future w := Pending]> (w_futures w))
            (S (w_next_future w)) (w_calls w)
            (w_trace w ++ [EvPut (w_next_future w)]).
Proof.
  unfold chat_enqueue, submit, _ensure_worker, create_future, q_put, modify.
  unfold mbind, M_bind, mret, M_ret.
  destruct w as [q k fs n calls t]. by destruct k.
Qed.

Lemma Inv_chat_enqueue history current_message w :
  Inv w -> Inv (snd (chat_enqueue history current_message w)).
Proof.
  intros (Hp & Hs & Hi & Hf & Hw). rewrite chat_enqueue_world.
  unfold Inv. cbn [w_trace w_next_future w_futures w_worker w_queue].
  rewrite puts_of_app, finished_of_app. cbn [puts_of finished_of omap list_omap].
  rewrite app_nil_r. set (d := length (finished_of (w_trace w))) in *.
  set (n := w_next_future w) in *.
  split; [by rewrite Hp, seq_S|]. split; [done|]. split.
  { apply invokes_ok_snoc; [done|]. intros job c H. discriminate. }
  split.
  { intros f Hlt. destruct (decide (f = n)) as [->|Hne].
    - left. apply lookup_insert_eq.
    - rewrite lookup_insert_ne by done. apply Hf. lia. }
  rewrite map_app. cbn [map fst].
  destruct (w_worker w) as [| | |f c a le].
  - destruct Hw as [Hle ->]. split; [lia|].
    replace (S n - d) with (S (n - d)) by lia. rewrite seq_S. do 2 f_equal. lia.
  - destruct Hw as [Hle ->]. split; [lia|].
    replace (S n - d) with (S (n - d)) by lia. rewrite seq_S. do 2 f_equal. lia.
  - destruct Hw as [Hle ->]. split; [lia|].
    replace (S n - d) with (S (n - d)) by lia. rewrite seq_S. do 2 f_equal. lia.
  - destruct Hw as (-> & Hlt & ->). split; [done|]. split; [lia|].
    replace (S n - S d) with (S (n - S d)) by lia. rewrite seq_S. do 2 f_equal. lia.
Qed.

Lemma Inv_record_call contents w f c a le :
  Inv w -> w_worker w = Running f c a le -> Inv (record_call contents w).
Proof.
  intros (Hp & Hs & Hi & Hf & Hw) Hr. unfold Inv, record_call, current_job.
  cbn [w_trace w_next_future w_futures w_worker w_queue].
  rewrite puts_of_app, finished_of_app. cbn [puts_of finished_of omap list_omap].
  rewrite !app_nil_r. repeat (split; [done|]). rewrite Hr in *. split; [|done].
  apply invokes_ok_snoc; [done|]. intros job c' [= <- _]. by destruct Hw as (-> & _).
Qed.

Lemma Inv_sleep delay w : Inv w -> Inv (emit (EvSleep delay) w).
Proof.
  intros (Hp & Hs & Hi & Hf & Hw). unfold Inv, emit.
  cbn [w_trace w_next_future w_futures w_worker w_queue].
  rewrite puts_of_app, finished_of_app. cbn [puts_of finished_of omap list_omap].
  rewrite !app_nil_r. repeat (split; [done|]). split; [|done].
  apply invokes_ok_snoc; [done|]. intros job c H. discriminate.
Qed.

Lemma Inv_next_attempt w f c a le a' le' :
  Inv w -> w_worker w = Running f c a le ->
  Inv (set_worker (Running f c a' le') w).
Proof.
  intros (Hp & Hs & Hi & Hf & Hw) Hr. unfold Inv, set_worker.
  cbn [w_trace w_next_future w_futures w_worker w_queue].
  repeat (split; [done|]). by rewrite Hr in Hw.
Qed.

(** The worker is done with the job in hand: the world is [w] with one
    more finished job, whatever became of the future. *)
Lemma Inv_finish w f c a le ev k fs :
  Inv w -> w_worker w = Running f c a le ->
  finished_of [ev] = [f] -> puts_of [ev] = [] ->
  (forall job c', ev <> EvInvoke job c') ->
  (k = Idle \/ k = Finished) ->
  (forall g, g <> f -> fs !! g = w_futures w !! g) ->
  Inv (mkWorld (w_queue w) k fs (w_next_future w) (w_calls w) (w_trace w ++ [ev])).
Proof.
  intros (Hp & Hs & Hi & Hf & Hw) Hr Hev Hput Hinv Hk Hfs. rewrite Hr in Hw.
  destruct Hw as (-> & Hlt & Hq).
  set (d := length (finished_of (w_trace w))) in *.
  unfold Inv. cbn [w_trace w_next_future w_futures w_worker w_queue].
  rewrite puts_of_app, finished_of_app, Hev, Hput, app_nil_r, length_app.
  fold d. cbn [length]. rewrite Nat.add_1_r.
  split; [done|]. split; [by rewrite seq_S, Hs|]. split.
  { apply invokes_ok_snoc; [done|]. intros job c' ->. by destruct (Hinv job c'). }
  split.
  { intros f' Hf'. rewrite Hfs by lia. apply Hf. lia. }
  destruct Hk as [-> | ->]; (split; [lia|done]).
Qed.

Lemma Inv_settle w f c a le r :
  Inv w -> w_worker w = Running f c a le -> Inv (snd (settle f r w)).
Proof.
  intros HI Hr. unfold settle.
  assert (forall ev k fs,
             finished_of [ev] = [f] -> puts_of [ev] = [] ->
             (forall job c', ev <> EvInvoke job c') ->
             (k = Idle \/ k = Finished) ->
             (forall g, g <> f -> fs !! g = w_futures w !! g) ->
             Inv (mkWorld (w_queue w) k fs (w_next_future w) (w_calls w)
                          (w_trace w ++ [ev]))) as Hgen
    by (intros; by eapply Inv_finish).
  destruct (w_futures w !! f) as [[]|]; try destruct r; cbn [snd];
    apply Hgen; try done; auto;
    intros g Hg; cbn; by rewrite ?lookup_insert_ne.
Qed.

Lemma Inv_cancel future w : Inv w -> Inv (snd (cancel_caller future w)).
Proof.
  intros HI. unfold cancel_caller.
  destruct (w_futures w !! future) as [[]|] eqn:E; try done. cbn [snd].
  destruct HI as (Hp & Hs & Hi & Hf & Hw). unfold Inv, emit, set_future.
  cbn [w_trace w_next_future w_futures w_worker w_queue].
  rewrite puts_of_app, finished_of_app. cbn [puts_of finished_of omap list_omap].
  rewrite !app_nil_r. split; [done|]. split; [done|]. split.
  { apply invokes_ok_snoc; [done|]. intros job c H. discriminate. }
  split; [|done]. intros f Hlt. destruct (decide (f = future)) as [->|Hne].
  - right. apply lookup_insert_eq.
  - rewrite lookup_insert_ne by done. by apply Hf.
Qed.

Section QueueFacts.
Context (provider : nat -> list Content -> Outcome).

Lemma Inv_worker_step w : Inv w -> Inv (snd (worker_step provider w)).
Proof.
  intros HI. unfold worker_step.
  destruct (w_worker w) as [| | |f c a le] eqn:Hr; try done.
  - destruct (w_queue w) as [|[f c] rest] eqn:Hq; [done|].
    destruct HI as (Hp & Hs & Hi & Hf & Hw). rewrite Hr, Hq in Hw.
    destruct Hw as [Hle Hw]. cbn [map fst] in Hw.
    unfold Inv, set_worker, set_queue.
    cbn [snd w_trace w_next_future w_futures w_worker w_queue].
    repeat (split; [done|]).
    destruct (w_next_future w - length (finished_of (w_trace w))) as [|m] eqn:E;
      [done|].
    cbn [seq] in Hw. injection Hw as -> Hrest.
    split; [done|]. split; [lia|]. rewrite Hrest. f_equal. lia.
  - destruct (a <? MAX_RETRIES + 1)%nat; [|by eapply Inv_settle].
    unfold attempt_once, generate_content, mbind, M_bind.
    assert (Inv (record_call c w)) as HI1 by (by eapply Inv_record_call).
    assert (w_worker (record_call c w) = Running f c a le) as Hr1 by done.
    destruct (provider (w_calls w) c) as [response_text|exc].
    + unfold mret, M_ret. by eapply Inv_settle.
    + destruct (is_429 (status_of exc) && (a <? MAX_RETRIES)%nat).
      * unfold sleep, modify, mret, M_ret. cbn [snd].
        eapply Inv_next_attempt; [by apply Inv_sleep|done].
      * unfold mret, M_ret. by eapply Inv_settle.
Qed.

Lemma Inv_run schedule w : Inv w -> Inv (run provider schedule w).
Proof.
  revert w. induction schedule as [|a schedule IH]; intros w HI; [done|].
  unfold run in *. cbn [fold_left]. apply IH. destruct a as [history m| |future].
  - by apply Inv_chat_enqueue.
  - by apply Inv_worker_step.
  - by apply Inv_cancel.
Qed.

Lemma before_puts t i j n :
  puts_of t = seq 0 n -> before t (EvPut i) (EvPut j) -> i < j.
Proof.
  intros Hp (l1 & l2 & l3 & ->).
  rewrite puts_of_app in Hp.
  change (EvPut i :: l2 ++ EvPut j :: l3)
    with ([EvPut i] ++ l2 ++ [EvPut j] ++ l3) in Hp.
  rewrite !puts_of_app in Hp. cbn [puts_of omap list_omap] in Hp.
  assert (seq 0 n !! length (puts_of l1) = Some i) as Hi
    by (rewrite <- Hp; apply list_lookup_middle; done).
  assert (seq 0 n !! (length (puts_of l1) + S (length (puts_of l2))) = Some j) as Hj.
  { rewrite <- Hp. rewrite lookup_app_r by lia.
    replace (length (puts_of l1) + S (length (puts_of l2)) - length (puts_of l1))
      with (S (length (puts_of l2))) by lia.
    cbn [app lookup list_lookup]. apply list_lookup_middle. done. }
  apply lookup_seq in Hi as [-> _]. apply lookup_seq in Hj as [-> _]. lia.
Qed.
End QueueFacts.

(** ** The worker, step by step and iteration by iteration

    [worker_iteration] runs one job to its end in one go; [worker_step] goes
    from one suspension point to the next.  Left alone, the steps reach the
    world that the iteration gives. *)
Section StepFacts.
Context (provider : nat -> list Content -> Outcome).

Lemma attempt_once_set_worker K c a w :
  current_job (set_worker K w) = current_job w ->
  attempt_once provider c a (set_worker K w)
  = (let (ctl, w1) := attempt_once provider c a w in (ctl, set_worker K w1)).
Proof.
  intros Hj. unfold attempt_once, generate_content, mbind, M_bind, record_call.
  rewrite Hj. cbn [w_calls set_worker].
  destruct (provider (w_calls w) c) as [response_text|exc]; [done|].
  by destruct (is_429 (status_of exc) && (a <? MAX_RETRIES)%nat).
Qed.

Lemma attempt_once_worker c a w :
  w_worker (snd (attempt_once provider c a w)) = w_worker w.
Proof.
  unfold attempt_once, generate_content, mbind, M_bind.
  destruct (provider (w_calls w) c) as [response_text|exc]; [done|].
  by destruct (is_429 (status_of exc) && (a <? MAX_RETRIES)%nat).
Qed.

Lemma retry_loop_set_worker K c attempts :
  forall last_err w,
    current_job (set_worker K w) = current_job w ->
    retry_loop provider c attempts last_err (set_worker K w)
    = (let (r, w2) := retry_loop provider c attempts last_err w in
       (r, set_worker K w2)).
Proof.
  induction attempts as [|a attempts IH]; intros last_err w Hj; [done|].
  cbn [retry_loop]. unfold mbind, M_bind.
  rewrite attempt_once_set_worker by done.
  pose proof (attempt_once_worker c a w) as Hw.
  destruct (attempt_once provider c a w) as [[response_text|exc|exc] w1]; try done.
  apply IH. cbn [snd] in Hw. unfold current_job in *. cbn [w_worker set_worker] in *.
  by rewrite Hw.
Qed.

Lemma settle_set_worker K f r w :
  settle f r (set_worker K w) = settle f r w.
Proof.
  unfold settle. cbn [w_futures set_worker].
  destruct (w_futures w !! f) as [[]|]; by destruct r.
Qed.

Lemma run_worker_steps_S k w :
  run provider (replicate (S k) WorkerStep) w
  = run provider (replicate k WorkerStep) (snd (worker_step provider w)).
Proof. done. Qed.

Lemma worker_steps_running f c :
  forall n a last_err w,
    w_worker w = Running f c a last_err -> a + n = MAX_RETRIES + 1 ->
    exists k,
      1 <= k <= n + 1
      /\ run provider (replicate k WorkerStep) w
         = (let (r, w2) := retry_loop provider c (seq a n) last_err w in
            snd (settle f r w2)).
Proof.
  induction n as [|n IH]; intros a last_err w Hr Ha.
  - exists 1. split; [lia|]. rewrite run_worker_steps_S. cbn [replicate run fold_left].
    unfold worker_step. rewrite Hr.
    replace (a <? MAX_RETRIES + 1)%nat with false by (symmetry; apply Nat.ltb_ge; lia).
    done.
  - cbn [seq retry_loop]. unfold mbind, M_bind.
    pose proof (attempt_once_worker c a w) as Hw.
    destruct (attempt_once provider c a w) as [ctl w1] eqn:E. cbn [snd] in Hw.
    assert (snd (worker_step provider w)
            = match ctl with
              | Break response_text => snd (settle f (Return response_text) w1)
              | Continue exc => set_worker (Running f c (S a) (Some exc)) w1
              | Reraise exc => snd (settle f (Raise exc) w1)
              end) as Hstep.
    { unfold worker_step. rewrite Hr.
      replace (a <? MAX_RETRIES + 1)%nat with true by (symmetry; apply Nat.ltb_lt; lia).
      rewrite E. by destruct ctl. }
    destruct ctl as [response_text|exc|exc].
    + exists 1. split; [lia|]. by rewrite run_worker_steps_S, Hstep.
    + destruct (IH (S a) (Some exc) (set_worker (Running f c (S a) (Some exc)) w1))
        as (k & Hk & Hrun); [done|lia|].
      exists (S k). split; [lia|]. rewrite run_worker_steps_S, Hstep, Hrun.
      rewrite retry_loop_set_worker
        by (unfold current_job; cbn [w_worker set_worker]; by rewrite Hw, Hr).
      destruct (retry_loop provider c (seq (S a) n) (Some exc) w1) as [r w2].
      by rewrite settle_set_worker.
    + exists 1. split; [lia|]. by rewrite run_worker_steps_S, Hstep.
Qed.

(** From an idle worker and a non-empty queue, a bounded number of worker
    steps does what one iteration does. *)
Lemma worker_steps_iteration w :
  w_worker w = Idle -> w_queue w <> [] ->
  exists k,
    2 <= k <= MAX_RETRIES + 3
    /\ run provider (replicate k WorkerStep) w = snd (worker_iteration provider w).
Proof.
  intros Hw Hq. destruct (w_queue w) as [|[f c] rest] eqn:E; [done|].
  set (w1 := set_worker (Running f c 0 None) (set_queue rest w)).
  destruct (worker_steps_running f c (MAX_RETRIES + 1) 0 None w1)
    as (k & Hk & Hrun); [done|done|].
  exists (S k). split; [unfold MAX_RETRIES in *; lia|].
  rewrite run_worker_steps_S.
  assert (snd (worker_step provider w) = w1) as ->
    by (unfold worker_step; by rewrite Hw, E).
  rewrite Hrun. unfold worker_iteration. rewrite Hw, E. fold w1.
  unfold _call_with_retry, mbind, M_bind.
  destruct (retry_loop provider c (seq 0 (MAX_RETRIES + 1)) None w1) as [r w2].
  by destruct (settle f r w2).
Qed.
End StepFacts.

(** * Further properties *)

(** ** The retry loop, for any provider *)
Section RetryOutcome.
Context (provider : nat -> list Content -> Outcome).

(** How the loop ends, whatever the provider does: after [k] attempts
    that failed with status 429 and were slept on, one more call decides. *)
Lemma retry_loop_outcome c :
  forall n a last_err w,
    a + n = MAX_RETRIES + 1 -> 0 < n ->
    exists k r,
      a + k <= MAX_RETRIES
      /\ retry_loop provider c (seq a n) last_err w
         = (r, logged w (k + 1)
                 (retry_events (current_job w) c a k
                    ++ [EvInvoke (current_job w) c]))
      /\ (forall i, i < k ->
            exists exc, provider (w_calls w + i) c = Raised exc
                        /\ is_429 (status_of exc) = true)
      /\ match r with
         | Return response_text =>
             provider (w_calls w + k) c = Returned response_text
         | Raise exc =>
             provider (w_calls w + k) c = Raised exc
             /\ (is_429 (status_of exc) = false \/ a + k = MAX_RETRIES)
         end.
Proof.
  induction n as [|n IH]; intros a last_err w Ha Hn; [lia|].
  cbn [seq retry_loop]. unfold mbind, M_bind.
  destruct (provider (w_calls w) c) as [response_text|exc] eqn:Hp.
  - exists 0, (Return response_text).
    rewrite (attempt_once_returned _ _ _ _ response_text) by done.
    split; [lia|]. split; [|split].
    + unfold mret, M_ret, logged, record_call. simpl. do 2 f_equal. lia.
    + intros i Hi. lia.
    + by rewrite Nat.add_0_r.
  - destruct (is_429 (status_of exc)) eqn:H429;
      [destruct (decide (a < MAX_RETRIES)) as [Hlt|Hge]|].
    + rewrite (attempt_once_backoff _ _ _ _ exc) by done.
      destruct (IH (S a) (Some exc)
                  (emit (EvSleep (backoff a)) (record_call c w)))
        as (k & r & Hk & Hrun & Hfail & Hlast); [lia|lia|].
      exists (S k), r. split; [lia|]. split; [|split].
      * rewrite Hrun. f_equal. rewrite retry_events_S.
        unfold logged, emit, record_call, current_job. simpl.
        f_equal; [lia|]. by rewrite <- !app_assoc.
      * intros [|i] Hi.
        -- exists exc. by rewrite Nat.add_0_r.
        -- destruct (Hfail i) as (e & He & H429e); [lia|]. exists e.
           split; [|done]. rewrite <- He. simpl. f_equal. lia.
      * simpl in Hlast.
        replace (w_calls w + S k) with (S (w_calls w + k)) by lia.
        destruct r as [response_text|e]; [done|].
        destruct Hlast as [He Hor]. split; [done|].
        destruct Hor as [?|?]; [by left|right; lia].
    + exists 0, (Raise exc).
      rewrite (attempt_once_reraise _ _ _ _ exc) by (try done; right; lia).
      split; [unfold MAX_RETRIES in *; lia|]. split; [|split].
      * unfold mret, M_ret, logged, record_call. simpl. do 2 f_equal. lia.
      * intros i Hi. lia.
      * rewrite Nat.add_0_r. split; [done|]. right. unfold MAX_RETRIES in *. lia.
    + exists 0, (Raise exc).
      rewrite (attempt_once_reraise _ _ _ _ exc) by (try done; by left).
      split; [unfold MAX_RETRIES in *; lia|]. split; [|split].
      * unfold mret, M_ret, logged, record_call. simpl. do 2 f_equal. lia.
      * intros i Hi. lia.
      * rewrite Nat.add_0_r. split; [done|]. by left.
Qed.

(** X1: whatever the provider does, [_call_with_retry] makes between one
    and [MAX_RETRIES + 1] calls; its result is what the last of them did
    (so the [raise last_err] after the loop is never reached); every call
    before the last raised with status 429 and was followed by the sleep
    [BASE_DELAY_S * 2 ^ attempt]; it stops early on a raise only when the
    status is not 429; and it touches neither the queue, the worker nor
    the futures. *)
Theorem call_with_retry_outcome (contents : list Content) (w : World) :
  exists k r,
    k <= MAX_RETRIES
    /\ _call_with_retry provider contents w
       = (r, logged w (k + 1)
               (retry_events (current_job w) contents 0 k
                  ++ [EvInvoke (current_job w) contents]))
    /\ (forall i, i < k ->
          exists exc, provider (w_calls w + i) contents = Raised exc
                      /\ is_429 (status_of exc) = true)
    /\ match r with
       | Return response_text =>
           provider (w_calls w + k) contents = Returned response_text
       | Raise exc =>
           provider (w_calls w + k) contents = Raised exc
           /\ (is_429 (status_of exc) = false \/ k = MAX_RETRIES)
       end
    /\ delays_of (retry_events (current_job w) contents 0 k) = take k [2; 4; 8; 16]%Z.
Proof.
  destruct (retry_loop_outcome contents (MAX_RETRIES + 1) 0 None w)
    as (k & r & Hk & Hrun & Hfail & Hlast); [done|unfold MAX_RETRIES; lia|].
  exists k, r. split; [done|]. split; [done|]. split; [done|]. split; [done|].
  rewrite delays_of_retry_events. unfold MAX_RETRIES in Hk.
  destruct k as [|[|[|[|[|k]]]]]; try done; lia.
Qed.
End RetryOutcome.

(** ** The queue: what the log says about every job *)

Lemma invocations_of_app t1 t2 :
  invocations_of (t1 ++ t2) = invocations_of t1 ++ invocations_of t2.
Proof. apply omap_app. Qed.

Lemma calls_for_app g t1 t2 :
  calls_for g (t1 ++ t2) = calls_for g t1 + calls_for g t2.
Proof.
  unfold calls_for. by rewrite invocations_of_app, filter_app, length_app.
Qed.

Lemma calls_for_snoc_invoke g t c :
  calls_for g (t ++ [EvInvoke (Some g) c]) = S (calls_for g t).
Proof.
  rewrite calls_for_app. unfold calls_for at 2. cbn [invocations_of omap list_omap].
  rewrite filter_cons_True by done. simpl. lia.
Qed.

Lemma calls_for_snoc_invoke_ne g f t c :
  g <> f -> calls_for g (t ++ [EvInvoke (Some f) c]) = calls_for g t.
Proof.
  intros Hne. rewrite calls_for_app. unfold calls_for at 2.
  cbn [invocations_of omap list_omap].
  rewrite filter_cons_False by congruence. simpl. lia.
Qed.

Lemma calls_for_snoc_other g t e :
  (forall job c, e <> EvInvoke job c) -> calls_for g (t ++ [e]) = calls_for g t.
Proof.
  intros He. rewrite calls_for_app. unfold calls_for at 2.
  destruct e; try (simpl; lia). by destruct (He job contents).
Qed.

Lemma finished_lt w g :
  Inv w -> g ∈ finished_of (w_trace w) -> g < length (finished_of (w_trace w)).
Proof.
  intros (_ & Hs & _) Hg. rewrite Hs in Hg at 1. apply elem_of_seq in Hg. lia.
Qed.

Lemma settled_lt w g :
  Inv w -> g ∈ settled_of (w_trace w) -> g < length (finished_of (w_trace w)).
Proof. intros HI Hg. by apply finished_lt, settled_finished. Qed.

Lemma Inv2_init provider : Inv2 provider [] init.
Proof.
  unfold Inv2. simpl. repeat split; try done; try lia.
  all: try apply cancels_ok_nil.
  all: intros; try lia; by match goal with H : _ ∈ [] |- _ => inversion H end.
Qed.

Lemma Inv_settled_le w :
  Inv w -> length (finished_of (w_trace w)) <= w_next_future w.
Proof.
  intros (_ & _ & _ & _ & Hw). destruct (w_worker w); try done; lia.
Qed.

Lemma elem_of_snoc {A : Type} (l : list A) x y : y ∈ l ++ [x] <-> y ∈ l \/ y = x.
Proof. rewrite elem_of_app, list_elem_of_singleton. tauto. Qed.

Lemma Inv2_chat_enqueue provider jobs history current_message w :
  Inv w -> Inv2 provider jobs w ->
  Inv2 provider (jobs ++ [chat_contents history current_message])
       (snd (chat_enqueue history current_message w)).
Proof.
  intros HI (Hn & Hq & Hw & Hinv & Hres & Hexc & Hcan & Hcok & Hcnt & Hzero & Hnone).
  pose proof (Inv_settled_le w HI) as Hdn.
  rewrite chat_enqueue_world. unfold Inv2.
  cbn [w_trace w_next_future w_futures w_worker w_queue w_calls].
  rewrite finished_of_app. cbn [finished_of omap list_omap]. rewrite app_nil_r.
  set (d := length (finished_of (w_trace w))) in *.
  assert (forall g, calls_for g (w_trace w ++ [EvPut (w_next_future w)])
                    = calls_for g (w_trace w)) as Hcalls
    by (intros g; by apply calls_for_snoc_other).
  assert (forall f c, jobs !! f = Some c ->
            (jobs ++ [chat_contents history current_message]) !! f = Some c) as Hext
    by (intros f c Hf; by apply lookup_app_l_Some).
  split; [rewrite length_app; simpl; lia|]. split.
  { apply Forall_app. split.
    - eapply Forall_impl; [exact Hq|]. intros [f c]. apply Hext.
    - constructor; [|done]. simpl. rewrite Hn. by apply list_lookup_middle. }
  split.
  { rewrite !Hcalls. destruct (w_worker w) as [| | |f c a le].
    - by destruct Hw.
    - by destruct Hw.
    - done.
    - destruct Hw as (Hf & Ha & Hc). rewrite Hcalls. auto. }
  split.
  { intros f c [Hin|[=]]%elem_of_snoc. eauto. }
  split.
  { intros f a [Hin|[=]]%elem_of_snoc.
    destruct (Hres f a Hin) as (Hfut & k & c & Hk & Hj & Hp).
    assert (f < d) by (apply finished_lt; [done|apply elem_of_finished_of; eauto]).
    rewrite lookup_insert_ne by lia. split; [done|]. exists k, c. auto. }
  split.
  { intros f exc [Hin|[=]]%elem_of_snoc.
    destruct (Hexc f exc Hin) as (Hfut & k & c & Hk & Hj & Hp).
    assert (f < d) by (apply finished_lt; [done|apply elem_of_finished_of; eauto]).
    rewrite lookup_insert_ne by lia. split; [done|]. exists k, c. auto. }
  split.
  { intros f. rewrite elem_of_snoc, <- Hcan.
    destruct (decide (f = w_next_future w)) as [->|Hne].
    - rewrite lookup_insert_eq, Hnone by lia. split; [done|]. by intros [|].
    - rewrite lookup_insert_ne by done. split; [auto|]. by intros [|]. }
  split.
  { apply cancels_ok_snoc; [done|]. intros f H. discriminate. }
  split; [intros f Hf; rewrite Hcalls; by apply Hcnt|].
  split; [intros f Hf; rewrite Hcalls; by apply Hzero|].
  intros f Hf. rewrite lookup_insert_ne by lia. apply Hnone. lia.
Qed.

Section QueueLog.
Context (provider : nat -> list Content -> Outcome).

Lemma Inv_running w f c a le :
  Inv w -> w_worker w = Running f c a le ->
  f = length (finished_of (w_trace w))
  /\ f < w_next_future w
  /\ (w_futures w !! f = Some Pending \/ w_futures w !! f = Some Cancelled).
Proof.
  intros (_ & _ & _ & Hf & Hw) Hr. rewrite Hr in Hw.
  destruct Hw as (-> & Hlt & _). split; [done|]. split; [done|].
  apply Hf. lia.
Qed.

(** The worker is done with the job in hand after one more call: the
    future got what the call gave, or was found cancelled. *)
Lemma Inv2_after_finish jobs w f c a le ev k fs :
  Inv w -> Inv2 provider jobs w -> w_worker w = Running f c a le ->
  finished_of [ev] = [f] ->
  (k = Idle \/ (k = Finished /\ ev = EvInvalidState f)) ->
  (forall g, g <> f -> fs !! g = w_futures w !! g) ->
  (fs !! f = Some Cancelled <-> EvCancel f ∈ w_trace w) ->
  (forall x, ev = EvSetResult f x ->
             fs !! f = Some (Resolved x) /\ provider (w_calls w) c = Returned x) ->
  (forall exc, ev = EvSetException f exc ->
               fs !! f = Some (Failed exc) /\ provider (w_calls w) c = Raised exc) ->
  (ev = EvInvalidState f -> EvCancel f ∈ w_trace w) ->
  Inv2 provider jobs
       (mkWorld (w_queue w) k fs (w_next_future w) (S (w_calls w))
                ((w_trace w ++ [EvInvoke (Some f) c]) ++ [ev])).
Proof.
  intros HI (Hn & Hq & Hw & Hinv & Hres & Hexc & Hcan & Hcok & Hcnt & Hzero & Hnone)
         Hr Hsev Hk Hfs Hcf Hevr Heve Hevi.
  destruct (Inv_running w f c a le HI Hr) as (Hfd & Hfn & _).
  rewrite Hr in Hw. destruct Hw as (Hjob & Ha & Hcalls).
  assert ((forall job c', ev <> EvInvoke job c') /\ (forall g, ev <> EvCancel g))
    as [Hnev Hnec] by (split; intros; intros ->; discriminate).
  assert (forall g, (exists x, ev = EvSetResult g x) \/ (exists x, ev = EvSetException g x)
                    \/ ev = EvInvalidState g -> g = f) as Hevf.
  { intros g [[x ->]|[[x ->]| ->]]; by injection Hsev. }
  unfold Inv2. cbn [w_trace w_next_future w_futures w_worker w_queue w_calls].
  rewrite !finished_of_app, Hsev. cbn [finished_of omap list_omap].
  rewrite app_nil_r, length_app. cbn [length].
  set (t := w_trace w) in *. set (d := length (finished_of t)) in *.
  assert (forall g, calls_for g ((t ++ [EvInvoke (Some f) c]) ++ [ev])
                    = if decide (g = f) then S (calls_for g t) else calls_for g t)
    as Hnew.
  { intros g. rewrite calls_for_snoc_other by done. case_decide as Hg.
    - subst g. apply calls_for_snoc_invoke.
    - by apply calls_for_snoc_invoke_ne. }
  assert (forall g, g ∈ finished_of t -> g <> f) as Hold.
  { intros g Hg. pose proof (finished_lt w g HI Hg) as Hlt. fold t d in Hlt. lia. }
  split; [done|]. split; [done|]. split.
  { assert (calls_for (d + 1) ((t ++ [EvInvoke (Some f) c]) ++ [ev]) = 0) as Hz
      by (rewrite Hnew, decide_False by lia; apply Hzero; lia).
    destruct Hk as [->|[-> ->]]; [done|]. split; [done|].
    exists f. apply elem_of_snoc. by right. }
  split.
  { intros g c' [[Hin|[= <- <-]]%elem_of_snoc|Hin]%elem_of_snoc; [eauto|done|].
    by destruct (Hnev (Some g) c'). }
  split.
  { intros g x [[Hin|[=]]%elem_of_snoc|Hin]%elem_of_snoc.
    - destruct (Hres g x Hin) as (Hfut & k' & c' & Hk' & Hj & Hp).
      rewrite Hfs by (apply Hold, elem_of_finished_of; eauto).
      split; [done|]. exists k', c'. split; [lia|done].
    - assert (g = f) as -> by (apply Hevf; eauto).
      destruct (Hevr x) as [Hf Hp]; [done|]. split; [done|].
      exists (w_calls w), c. split; [lia|done]. }
  split.
  { intros g x [[Hin|[=]]%elem_of_snoc|Hin]%elem_of_snoc.
    - destruct (Hexc g x Hin) as (Hfut & k' & c' & Hk' & Hj & Hp).
      rewrite Hfs by (apply Hold, elem_of_finished_of; eauto).
      split; [done|]. exists k', c'. split; [lia|done].
    - assert (g = f) as -> by (apply Hevf; eauto).
      destruct (Heve x) as [Hf Hp]; [done|]. split; [done|].
      exists (w_calls w), c. split; [lia|done]. }
  split.
  { intros g. rewrite !elem_of_snoc.
    destruct (decide (g = f)) as [->|Hne].
    - rewrite Hcf. split; [auto|]. intros [[?|[=]]|Heq]; [done|].
      by destruct (Hnec f).
    - rewrite Hfs, Hcan by done. split; [auto|]. intros [[?|[=]]|Heq]; [done|].
      by destruct (Hnec g). }
  split.
  { apply cancels_ok_snoc.
    - apply cancels_ok_snoc; [done|]. intros g H. discriminate.
    - intros g Hg. apply elem_of_snoc. left.
      assert (g = f) as -> by (apply Hevf; auto). apply Hevi. by rewrite Hg. }
  split.
  { intros g Hg. rewrite Hnew. case_decide as Hgf.
    - subst g. rewrite Hcalls. unfold MAX_RETRIES in *. lia.
    - apply Hcnt. lia. }
  split.
  { intros g Hg. rewrite Hnew, decide_False by lia. apply Hzero. lia. }
  intros g Hg. rewrite Hfs by lia. by apply Hnone.
Qed.

Lemma Inv2_settle_after_call jobs w f c a le r :
  Inv w -> Inv2 provider jobs w -> w_worker w = Running f c a le ->
  match r with
  | Return response_text => provider (w_calls w) c = Returned response_text
  | Raise exc => provider (w_calls w) c = Raised exc
  end ->
  Inv2 provider jobs (snd (settle f r (record_call c w))).
Proof.
  intros HI HI2 Hr Hp.
  destruct (Inv_running w f c a le HI Hr) as (_ & _ & Hfut).
  pose proof HI2 as (_ & _ & _ & _ & _ & _ & Hcan & _).
  unfold settle, record_call, current_job, set_worker, emit, set_future.
  cbn [w_futures w_trace w_queue w_worker w_next_future w_calls]. rewrite Hr.
  destruct Hfut as [Hf|Hf]; rewrite Hf.
  - assert (EvCancel f ∉ w_trace w) as Hnc
      by (intros Hin%Hcan; congruence).
    destruct r as [response_text|exc]; cbn [snd];
      (eapply Inv2_after_finish; [done|done|done|done|by left| | | | |]);
      try (intros g Hg; by rewrite lookup_insert_ne);
      try (rewrite lookup_insert_eq; split; [done|by intros ?%Hnc]);
      try done;
      try (intros x [= <-]; by rewrite lookup_insert_eq).
  - cbn [snd]. eapply Inv2_after_finish; [done|done|done|done|right; done| | | | |];
      try done.
    intros _. by apply Hcan.
Qed.

(** The job in hand failed with status 429 and will be tried again. *)
Lemma Inv2_retry jobs w f c a le exc :
  Inv w -> Inv2 provider jobs w -> w_worker w = Running f c a le ->
  a < MAX_RETRIES ->
  Inv2 provider jobs
       (set_worker (Running f c (S a) (Some exc))
                   (emit (EvSleep (backoff a)) (record_call c w))).
Proof.
  intros HI (Hn & Hq & Hw & Hinv & Hres & Hexc & Hcan & Hcok & Hcnt & Hzero & Hnone)
         Hr Ha.
  destruct (Inv_running w f c a le HI Hr) as (Hfd & Hfn & _).
  rewrite Hr in Hw. destruct Hw as (Hjob & _ & Hcalls).
  unfold Inv2, set_worker, emit, record_call, current_job.
  cbn [w_trace w_next_future w_futures w_worker w_queue w_calls]. rewrite Hr.
  rewrite !finished_of_app. cbn [finished_of omap list_omap]. rewrite !app_nil_r.
  set (t := w_trace w) in *. set (d := length (finished_of t)) in *.
  assert (forall g, calls_for g ((t ++ [EvInvoke (Some f) c]) ++ [EvSleep (backoff a)])
                    = if decide (g = f) then S (calls_for g t) else calls_for g t)
    as Hnew.
  { intros g. rewrite calls_for_snoc_other by done. case_decide as Hg.
    - subst g. apply calls_for_snoc_invoke.
    - by apply calls_for_snoc_invoke_ne. }
  split; [done|]. split; [done|]. split.
  { split; [done|]. split; [lia|]. by rewrite Hnew, decide_True, Hcalls. }
  split.
  { intros g c' [[Hin|[= <- <-]]%elem_of_snoc|[=]]%elem_of_snoc; eauto. }
  split.
  { intros g x [[Hin|[=]]%elem_of_snoc|[=]]%elem_of_snoc.
    destruct (Hres g x Hin) as (Hfut & k & c' & Hk & Hj & Hp).
    split; [done|]. exists k, c'. split; [lia|done]. }
  split.
  { intros g x [[Hin|[=]]%elem_of_snoc|[=]]%elem_of_snoc.
    destruct (Hexc g x Hin) as (Hfut & k & c' & Hk & Hj & Hp).
    split; [done|]. exists k, c'. split; [lia|done]. }
  split.
  { intros g. rewrite !elem_of_snoc, Hcan. split; [auto|].
    by intros [[?|[=]]|[=]]. }
  split.
  { apply cancels_ok_snoc; [apply cancels_ok_snoc; [done|]|]; intros g H; discriminate. }
  split.
  { intros g Hg. rewrite Hnew, decide_False by lia. by apply Hcnt. }
  split.
  { intros g Hg. rewrite Hnew, decide_False by lia. by apply Hzero. }
  done.
Qed.

Lemma Inv2_cancel jobs future w :
  Inv w -> Inv2 provider jobs w ->
  Inv2 provider jobs (snd (cancel_caller future w)).
Proof.
  intros HI HI2. unfold cancel_caller.
  destruct (w_futures w !! future) as [[]|] eqn:E; try done. cbn [snd].
  destruct HI2 as (Hn & Hq & Hw & Hinv & Hres & Hexc & Hcan & Hcok & Hcnt & Hzero & Hnone).
  unfold Inv2, emit, set_future.
  cbn [w_trace w_next_future w_futures w_worker w_queue w_calls].
  rewrite finished_of_app. cbn [finished_of omap list_omap]. rewrite app_nil_r.
  assert (forall g, calls_for g (w_trace w ++ [EvCancel future])
                    = calls_for g (w_trace w)) as Hcalls
    by (intros g; by apply calls_for_snoc_other).
  split; [done|]. split; [done|]. split.
  { rewrite !Hcalls. destruct (w_worker w) as [| | |f c a le]; try done.
    - destruct Hw as [Hz [f Hf]]. split; [done|]. exists f. apply elem_of_snoc. auto.
    - by rewrite Hcalls. }
  split.
  { intros f c [Hin|[=]]%elem_of_snoc. eauto. }
  split.
  { intros f a [Hin|[=]]%elem_of_snoc.
    destruct (Hres f a Hin) as (Hfut & Hk).
    rewrite lookup_insert_ne by congruence. done. }
  split.
  { intros f exc [Hin|[=]]%elem_of_snoc.
    destruct (Hexc f exc Hin) as (Hfut & Hk).
    rewrite lookup_insert_ne by congruence. done. }
  split.
  { intros f. rewrite elem_of_snoc. destruct (decide (f = future)) as [->|Hne].
    - rewrite lookup_insert_eq. split; auto.
    - rewrite lookup_insert_ne, Hcan by done. split; [auto|].
      intros [?|[=]]; done. }
  split.
  { apply cancels_ok_snoc; [done|]. intros f H. discriminate. }
  split; [intros f Hf; rewrite Hcalls; by apply Hcnt|].
  split; [intros f Hf; rewrite Hcalls; by apply Hzero|].
  intros f Hf. rewrite lookup_insert_ne; [by apply Hnone|].
  intros ->. rewrite Hnone in E by done. discriminate.
Qed.

Lemma Inv2_worker_step jobs w :
  Inv w -> Inv2 provider jobs w -> Inv2 provider jobs (snd (worker_step provider w)).
Proof.
  intros HI HI2. unfold worker_step.
  destruct (w_worker w) as [| | |f c a le] eqn:Hr; try done.
  - destruct (w_queue w) as [|[f c] rest] eqn:Hq; [done|]. cbn [snd].
    destruct HI as (_ & _ & _ & _ & Hw). rewrite Hr, Hq in Hw.
    destruct Hw as [Hle Hseq]. cbn [map fst] in Hseq.
    destruct (w_next_future w - length (finished_of (w_trace w))) as [|m]; [done|].
    cbn [seq] in Hseq. injection Hseq as -> _.
    destruct HI2 as (Hn & Hfor & Hw & Hrest). rewrite Hr in Hw. rewrite Hq in Hfor.
    apply Forall_cons in Hfor as [Hhead Hfor]. cbn [fst snd] in Hhead.
    unfold Inv2, set_worker, set_queue.
    cbn [w_trace w_next_future w_futures w_worker w_queue w_calls].
    split; [done|]. split; [done|]. split; [|done].
    split; [done|]. split; [lia|done].
  - assert (a <= MAX_RETRIES) as Ha.
    { destruct HI2 as (_ & _ & Hw & _). rewrite Hr in Hw. tauto. }
    replace (a <? MAX_RETRIES + 1)%nat with true
      by (symmetry; apply Nat.ltb_lt; lia).
    unfold attempt_once, generate_content, sleep, modify.
    unfold mbind, M_bind, mret, M_ret.
    destruct (provider (w_calls w) c) as [response_text|exc] eqn:Hp.
    + by eapply (Inv2_settle_after_call jobs w f c a le (Return response_text)).
    + destruct (is_429 (status_of exc) && (a <? MAX_RETRIES)%nat) eqn:Hretry.
      * cbn [snd]. apply andb_true_iff in Hretry as [_ Hlt%Nat.ltb_lt].
        by eapply Inv2_retry.
      * by eapply (Inv2_settle_after_call jobs w f c a le (Raise exc)).
Qed.

Lemma submitted_app s1 s2 : submitted (s1 ++ s2) = submitted s1 ++ submitted s2.
Proof. apply omap_app. Qed.

Lemma Inv_both_run schedule :
  forall jobs w,
    Inv w -> Inv2 provider jobs w ->
    Inv (run provider schedule w)
    /\ Inv2 provider (jobs ++ submitted schedule) (run provider schedule w).
Proof.
  induction schedule as [|a schedule IH]; intros jobs w HI HI2.
  - unfold submitted. simpl. by rewrite app_nil_r.
  - change (a :: schedule) with ([a] ++ schedule).
    rewrite submitted_app, app_assoc.
    change (run provider ([a] ++ schedule) w)
      with (run provider schedule (step provider a w)).
    apply IH.
    + destruct a as [history m| |future];
        [by apply Inv_chat_enqueue|by apply Inv_worker_step|by apply Inv_cancel].
    + destruct a as [history m| |future].
      * by apply Inv2_chat_enqueue.
      * unfold submitted. simpl. rewrite app_nil_r. by apply Inv2_worker_step.
      * unfold submitted. simpl. rewrite app_nil_r. by apply Inv2_cancel.
Qed.

Lemma Inv_both_reachable schedule :
  Inv (run provider schedule init)
  /\ Inv2 provider (submitted schedule) (run provider schedule init).
Proof. apply (Inv_both_run schedule [] init Inv_init (Inv2_init provider)). Qed.

(** What the worker has done with a job it is done with, and what the
    job's future holds ever after. *)
Lemma finished_cases jobs w t1 t2 i :
  Inv2 provider jobs w -> w_trace w = t1 ++ t2 -> i ∈ finished_of t1 ->
  (exists a, EvSetResult i a ∈ t1 /\ w_futures w !! i = Some (Resolved a))
  \/ (exists exc, EvSetException i exc ∈ t1 /\ w_futures w !! i = Some (Failed exc))
  \/ (EvCancel i ∈ t1 /\ EvInvalidState i ∈ t1 /\ w_futures w !! i = Some Cancelled).
Proof.
  intros (_ & _ & _ & _ & Hres & Hexc & Hcan & Hcok & _) Ht Hin.
  apply elem_of_finished_of in Hin as [[a Hin]|[[exc Hin]|Hin]].
  - left. exists a. split; [done|]. apply Hres. rewrite Ht. apply elem_of_app. auto.
  - right. left. exists exc. split; [done|]. apply Hexc. rewrite Ht.
    apply elem_of_app. auto.
  - right. right. pose proof Hin as (u & v & ->)%list_elem_of_split.
    assert (EvCancel i ∈ u) as Hc.
    { apply (Hcok u (v ++ t2) i). rewrite Ht. by rewrite <- app_assoc. }
    split; [apply elem_of_app; auto|]. split; [done|].
    apply Hcan. rewrite Ht. rewrite !elem_of_app. auto.
Qed.

(** C1, as the code has it: in every run of the event loop, whatever the
    interleaving of requests, cancellations and worker progress and
    whatever the provider does, each SDK call is made for a job the
    worker is not yet done with, while the worker is done with every job
    put on the queue before it: the earlier job is never called again,
    and its future holds the result that was set on it, or the exception
    that was set on it, or is cancelled because its caller cancelled it
    before the worker could set anything.  The worker is done with the
    jobs one by one in the order in which they were put, and whenever it
    holds a job, the future of every earlier job is in one of these three
    states. *)
Theorem worker_fifo (schedule : list Action) :
  let w := run provider schedule init in
  let t := w_trace w in
  (forall t1 t2 job c,
      t = t1 ++ EvInvoke job c :: t2 ->
      exists j,
        job = Some j
        /\ (forall i, before t (EvPut i) (EvPut j) ->
              ((exists a, EvSetResult i a ∈ t1
                          /\ w_futures w !! i = Some (Resolved a))
               \/ (exists exc, EvSetException i exc ∈ t1
                               /\ w_futures w !! i = Some (Failed exc))
               \/ (EvCancel i ∈ t1 /\ EvInvalidState i ∈ t1
                   /\ w_futures w !! i = Some Cancelled))
              /\ (forall c', EvInvoke (Some i) c' ∉ t2))
        /\ (forall a, EvSetResult j a ∉ t1)
        /\ (forall exc, EvSetException j exc ∉ t1)
        /\ EvInvalidState j ∉ t1)
  /\ (exists n d, puts_of t = seq 0 n /\ finished_of t = seq 0 d /\ d <= n)
  /\ (forall j c a last_err i,
        w_worker w = Running j c a last_err -> i < j ->
        (exists x, w_futures w !! i = Some (Resolved x))
        \/ (exists exc, w_futures w !! i = Some (Failed exc))
        \/ w_futures w !! i = Some Cancelled).
Proof.
  intros w t. subst w t.
  destruct (Inv_both_reachable schedule) as [HI HI2].
  set (w := run provider schedule init) in *.
  pose proof (Inv_settled_le w HI) as Hdn.
  pose proof HI as (Hp & Hs & Hi & Hf & Hw).
  split; [|split].
  - intros t1 t2 job c Ht.
    pose proof (Hi t1 t2 job c Ht) as ->. eexists. split; [done|].
    assert (finished_of t1 = seq 0 (length (finished_of t1))) as Hs1.
    { rewrite Ht, finished_of_app in Hs. by eapply seq_prefix. }
    assert (forall g, g ∈ finished_of t1 <-> g < length (finished_of t1)) as Hdone.
    { intros g. rewrite Hs1 at 1. rewrite elem_of_seq. lia. }
    assert (length (finished_of t1) ∉ finished_of t1) as Hnot
      by (intros Hc%Hdone; lia).
    split; [|split; [|split]].
    + intros i Hb. pose proof (before_puts _ _ _ _ Hp Hb) as Hlt. split.
      * apply (finished_cases (submitted schedule) w t1
                 (EvInvoke (Some (length (finished_of t1))) c :: t2));
          [exact HI2|done|by apply Hdone].
      * intros c' (u & v & ->)%list_elem_of_split.
        assert (Some i = Some (length (finished_of
                  (t1 ++ EvInvoke (Some (length (finished_of t1))) c :: u)))) as Heq.
        { apply (Hi _ v (Some i) c'). rewrite Ht. by rewrite <- app_assoc. }
        injection Heq as Heq. rewrite finished_of_app, length_app in Heq. lia.
    + intros a Hin. apply Hnot, elem_of_finished_of. eauto.
    + intros exc Hin. apply Hnot, elem_of_finished_of. eauto.
    + intros Hin. apply Hnot, elem_of_finished_of. eauto.
  - eexists _, _. split; [done|]. split; [done|]. done.
  - intros j c a le i Hr Hlt.
    destruct (Inv_running w j c a le HI Hr) as (-> & _ & _).
    destruct (finished_cases _ w (w_trace w) [] i HI2) as [(x & _ & H)|[(x & _ & H)|H]];
      [by rewrite app_nil_r|rewrite Hs; apply elem_of_seq; lia|eauto|eauto|].
    right. right. tauto.
Qed.

(** X2: in every run, the SDK is called at most [MAX_RETRIES + 1 = 5]
    times for any one job, at least once for every job that has been
    settled, and never for a job that has not been submitted. *)
Theorem job_call_budget (schedule : list Action) (f : nat) :
  let w := run provider schedule init in
  let t := w_trace w in
  calls_for f t <= MAX_RETRIES + 1
  /\ (f ∈ settled_of t -> 1 <= calls_for f t)
  /\ (w_next_future w <= f -> calls_for f t = 0).
Proof.
  intros w t. subst w t.
  destruct (Inv_both_reachable schedule) as [HI HI2].
  set (w := run provider schedule init) in *.
  pose proof (Inv_settled_le w HI) as Hdn.
  destruct HI2 as (Hn & Hq & Hw & Hinv & Hres & Hexc & Hcan & Hcok & Hcnt & Hzero & Hnone).
  set (d := length (finished_of (w_trace w))) in *.
  assert (d <= f -> calls_for f (w_trace w) <= MAX_RETRIES
                    /\ (w_next_future w <= f -> calls_for f (w_trace w) = 0)) as Hlate.
  { intros Hdf. destruct (decide (f = d)) as [Hfd|Hne].
    - rewrite Hfd. destruct (w_worker w) as [| | |f' c a le] eqn:Hr.
      + destruct Hw as [_ Hw]. rewrite Hw. split; [lia|done].
      + destruct Hw as [Hw _]. rewrite Hw. split; [lia|done].
      + rewrite Hw. split; [lia|done].
      + destruct (Inv_running w f' c a le HI Hr) as (Hf' & Hlt & _).
        fold d in Hf'. subst f'. destruct Hw as (_ & Ha & Hw). rewrite Hw.
        split; [done|lia].
    - rewrite Hzero by lia. split; [lia|done]. }
  split; [|split].
  - destruct (decide (f < d)) as [Hlt|Hge]; [by apply Hcnt|].
    destruct Hlate as [? _]; lia.
  - intros Hs. apply Hcnt. by apply settled_lt.
  - intros Hf. apply Hlate; [lia|done].
Qed.


(** X4: the futures and the log agree.  In every run, with callers that
    may cancel, a future holds a result exactly when the log has that
    result set on it, an exception exactly when the log has that
    exception set on it, is cancelled exactly when the log has its
    caller's cancellation taking effect, is pending exactly when it was
    created and the log has nothing set on it and no cancellation of it,
    and does not exist exactly when no request created it; so a future
    leaves the pending state at most once and what its caller awaits
    never changes afterwards. *)
Theorem futures_agree_with_log (schedule : list Action) (f : nat) :
  let w := run provider schedule init in
  let t := w_trace w in
  (forall a, w_futures w !! f = Some (Resolved a) <-> EvSetResult f a ∈ t)
  /\ (forall exc, w_futures w !! f = Some (Failed exc) <-> EvSetException f exc ∈ t)
  /\ (w_futures w !! f = Some Cancelled <-> EvCancel f ∈ t)
  /\ (w_futures w !! f = Some Pending
      <-> f < w_next_future w /\ (f ∉ settled_of t) /\ (EvCancel f ∉ t))
  /\ (w_futures w !! f = None <-> w_next_future w <= f).
Proof.
  intros w t. subst w t.
  destruct (Inv_both_reachable schedule) as [HI HI2].
  set (w := run provider schedule init) in *.
  pose proof (Inv_settled_le w HI) as Hdn.
  pose proof HI2 as (_ & _ & _ & _ & Hres & Hexc & Hcan & _ & _ & _ & Hnone).
  pose proof HI as (_ & Hs & _ & Hpend & _).
  set (d := length (finished_of (w_trace w))) in *.
  assert (f < d ->
          (exists a, EvSetResult f a ∈ w_trace w
                     /\ w_futures w !! f = Some (Resolved a))
          \/ (exists exc, EvSetException f exc ∈ w_trace w
                          /\ w_futures w !! f = Some (Failed exc))
          \/ (EvCancel f ∈ w_trace w /\ EvInvalidState f ∈ w_trace w
              /\ w_futures w !! f = Some Cancelled)) as Hold.
  { intros Hlt. apply (finished_cases _ w (w_trace w) [] f HI2);
      [by rewrite app_nil_r|]. rewrite Hs. apply elem_of_seq. lia. }
  assert (f < d \/ (d <= f < w_next_future w) \/ w_next_future w <= f) as Hcase by lia.
  assert (forall g, g ∈ settled_of (w_trace w) -> g < d) as Hsl
    by (intros g; by apply settled_lt).
  split; [|split; [|split; [|split]]].
  - intros a. split; [|by apply Hres]. intros Hf.
    destruct Hcase as [Hlt|[Hmid|Hge]].
    + destruct (Hold Hlt) as [(a' & Hin & Hf')|[(exc & _ & Hf')|(_ & _ & Hf')]];
        congruence.
    + destruct (Hpend f Hmid); congruence.
    + rewrite Hnone in Hf by done. discriminate.
  - intros exc. split; [|by apply Hexc]. intros Hf.
    destruct Hcase as [Hlt|[Hmid|Hge]].
    + destruct (Hold Hlt) as [(a' & _ & Hf')|[(exc' & Hin & Hf')|(_ & _ & Hf')]];
        congruence.
    + destruct (Hpend f Hmid); congruence.
    + rewrite Hnone in Hf by done. discriminate.
  - apply Hcan.
  - split.
    + intros Hf. destruct Hcase as [Hlt|[Hmid|Hge]].
      * destruct (Hold Hlt) as [(a' & _ & Hf')|[(exc' & _ & Hf')|(_ & _ & Hf')]];
          congruence.
      * split; [lia|]. split; [intros Hin%Hsl; lia|].
        intros Hin%Hcan. congruence.
      * rewrite Hnone in Hf by done. discriminate.
    + intros (Hlt & Hns & Hnc).
      destruct (decide (d <= f)) as [Hle|Hn].
      * destruct (Hpend f) as [H|H]; [lia|done|]. by apply Hcan in H.
      * destruct Hold as [(a' & Hin & _)|[(exc' & Hin & _)|(Hin & _)]]; [lia| | |done].
        -- exfalso. apply Hns, elem_of_settled_of. eauto.
        -- exfalso. apply Hns, elem_of_settled_of. eauto.
  - split; [|by apply Hnone]. intros Hf.
    destruct Hcase as [Hlt|[Hmid|Hge]]; [| |done].
    + destruct (Hold Hlt) as [(a' & _ & Hf')|[(exc' & _ & Hf')|(_ & _ & Hf')]];
        congruence.
    + destruct (Hpend f Hmid); congruence.
Qed.

(** *** Left alone, the worker empties the queue or ends on a cancelled job *)

Lemma run_app s1 s2 w :
  run provider (s1 ++ s2) w = run provider s2 (run provider s1 w).
Proof. unfold run. apply fold_left_app. Qed.

Lemma submitted_worker_steps k : submitted (replicate k WorkerStep) = [].
Proof. induction k as [|k IH]; [done|]. exact IH. Qed.

Lemma Inv_both_worker_steps k jobs w :
  Inv w -> Inv2 provider jobs w ->
  Inv (run provider (replicate k WorkerStep) w)
  /\ Inv2 provider jobs (run provider (replicate k WorkerStep) w).
Proof.
  intros HI HI2.
  destruct (Inv_both_run (replicate k WorkerStep) jobs w HI HI2) as [H1 H2].
  by rewrite submitted_worker_steps, app_nil_r in H2.
Qed.

(** The worker never cancels a future. *)
Lemma worker_step_no_cancel w f :
  EvCancel f ∈ w_trace (snd (worker_step provider w)) -> EvCancel f ∈ w_trace w.
Proof.
  unfold worker_step.
  destruct (w_worker w) as [| | |g c a le] eqn:Hr; try done.
  - by destruct (w_queue w) as [|[g c] rest].
  - unfold attempt_once, generate_content, sleep, modify, settle.
    unfold mbind, M_bind, mret, M_ret.
    unfold record_call, set_worker, emit, set_future.
    destruct (a <? MAX_RETRIES + 1)%nat;
      [destruct (provider (w_calls w) c) as [x|exc];
         [|destruct (is_429 (status_of exc) && (a <? MAX_RETRIES)%nat)]|];
      cbn [w_futures w_trace snd];
      repeat match goal with
             | |- context [match ?m !! ?k with _ => _ end] => destruct (m !! k) as [[]|]
             | |- context [match raise_last ?l with _ => _ end] => destruct (raise_last l)
             end;
      cbn [w_futures w_trace snd];
      rewrite ?elem_of_snoc; intros H;
      repeat (destruct H as [H|H]; [|discriminate]); exact H.
Qed.

Lemma worker_steps_no_cancel k :
  forall w f,
    EvCancel f ∈ w_trace (run provider (replicate k WorkerStep) w) ->
    EvCancel f ∈ w_trace w.
Proof.
  induction k as [|k IH]; intros w f H; [done|].
  rewrite run_worker_steps_S in H. by apply worker_step_no_cancel, IH.
Qed.

Lemma finish_running jobs w f c a le :
  Inv w -> Inv2 provider jobs w -> w_worker w = Running f c a le ->
  exists k,
    k <= MAX_RETRIES + 2
    /\ (w_worker (run provider (replicate k WorkerStep) w) = Idle
        \/ w_worker (run provider (replicate k WorkerStep) w) = Finished)
    /\ w_queue (run provider (replicate k WorkerStep) w) = w_queue w.
Proof.
  intros HI HI2 Hr.
  assert (a <= MAX_RETRIES) as Ha.
  { destruct HI2 as (_ & _ & Hw & _). rewrite Hr in Hw. tauto. }
  destruct (worker_steps_running provider f c (MAX_RETRIES + 1 - a) a le w Hr)
    as (k & Hk & Hrun); [lia|].
  destruct (retry_loop_outcome provider c (MAX_RETRIES + 1 - a) a le w)
    as (k' & r & _ & Hloop & _); [lia|lia|].
  exists k. split; [lia|]. rewrite Hrun, Hloop.
  unfold settle, logged. cbn [w_futures].
  destruct (w_futures w !! f) as [[]|]; destruct r; cbn; auto.
Qed.

Lemma dequeue_and_finish jobs w f c rest :
  Inv w -> Inv2 provider jobs w -> w_worker w = Idle ->
  w_queue w = (f, c) :: rest ->
  exists k,
    k <= MAX_RETRIES + 3
    /\ (w_worker (run provider (replicate k WorkerStep) w) = Idle
        \/ w_worker (run provider (replicate k WorkerStep) w) = Finished)
    /\ w_queue (run provider (replicate k WorkerStep) w) = rest.
Proof.
  intros HI HI2 Hw Hq.
  set (w1 := snd (worker_step provider w)).
  assert (w_worker w1 = Running f c 0 None /\ w_queue w1 = rest) as [Hr1 Hq1]
    by (unfold w1, worker_step; by rewrite Hw, Hq).
  destruct (finish_running jobs w1 f c 0 None) as (k & Hk & Hidle & Hqueue);
    [by apply Inv_worker_step|by apply Inv2_worker_step|done|].
  exists (S k). split; [lia|]. rewrite run_worker_steps_S. fold w1.
  by rewrite Hqueue.
Qed.

Lemma drain_idle jobs :
  forall m w,
    Inv w -> Inv2 provider jobs w -> w_worker w = Idle ->
    length (w_queue w) = m ->
    exists k,
      k <= (MAX_RETRIES + 3) * m
      /\ ((w_worker (run provider (replicate k WorkerStep) w) = Idle
           /\ w_queue (run provider (replicate k WorkerStep) w) = [])
          \/ w_worker (run provider (replicate k WorkerStep) w) = Finished).
Proof.
  induction m as [|m IH]; intros w HI HI2 Hw Hlen.
  - exists 0. split; [lia|]. left. split; [done|]. by apply nil_length_inv.
  - destruct (w_queue w) as [|[f c] rest] eqn:Hq; [done|].
    destruct (dequeue_and_finish jobs w f c rest HI HI2 Hw Hq)
      as (k1 & Hk1 & [Hidle|Hfin] & Hrest).
    + destruct (Inv_both_worker_steps k1 jobs w HI HI2) as [HI' HI2'].
      destruct (IH _ HI' HI2' Hidle) as (k2 & Hk2 & Hend).
      { rewrite Hrest. simpl in Hlen. lia. }
      exists (k1 + k2). split; [lia|]. by rewrite replicate_add, run_app.
    + exists k1. split; [lia|]. by right.
Qed.

(** X5: left alone, the worker gets through what it can.  From any
    state a run can reach, at most [MAX_RETRIES + 3] worker steps per
    outstanding job, with no new request in between, leave the worker
    without a job, and then either the queue is empty and every future
    created so far holds a result or an exception or is cancelled, or
    the worker task has ended on a future that its caller had cancelled
    (the jobs still queued wait for the next request to start a worker).
    When no caller has cancelled, the first is the case and every future
    holds a result or an exception. *)
Theorem queue_drains (schedule : list Action) :
  let w := run provider schedule init in
  exists k,
    k <= (MAX_RETRIES + 3) * S (length (w_queue w))
    /\ let w' := run provider (replicate k WorkerStep) w in
       current_job w' = None
       /\ ((w_queue w' = []
            /\ forall f, f < w_next_future w ->
                 (exists a, w_futures w' !! f = Some (Resolved a))
                 \/ (exists exc, w_futures w' !! f = Some (Failed exc))
                 \/ w_futures w' !! f = Some Cancelled)
           \/ (w_worker w' = Finished
               /\ exists f, EvCancel f ∈ w_trace w' /\ EvInvalidState f ∈ w_trace w'))
       /\ ((forall f, EvCancel f ∉ w_trace w) ->
           w_queue w' = []
           /\ forall f, f < w_next_future w ->
                (exists a, w_futures w' !! f = Some (Resolved a))
                \/ (exists exc, w_futures w' !! f = Some (Failed exc))).
Proof.
  intros w. subst w.
  destruct (Inv_both_reachable schedule) as [HI HI2].
  set (w := run provider schedule init) in *.
  set (jobs := submitted schedule) in *.
  assert (exists k,
             k <= (MAX_RETRIES + 3) * S (length (w_queue w))
             /\ (((w_worker (run provider (replicate k WorkerStep) w) = Idle
                   \/ (w_worker (run provider (replicate k WorkerStep) w) = NotStarted
                       /\ w_next_future w = 0))
                  /\ w_queue (run provider (replicate k WorkerStep) w) = [])
                 \/ w_worker (run provider (replicate k WorkerStep) w) = Finished))
    as (k & Hk & Hend).
  { destruct (w_worker w) as [| | |f c a le] eqn:Hr.
    - exists 0. split; [lia|]. left. destruct HI2 as (Hn & _ & Hw & _).
      rewrite Hr in Hw. destruct Hw as [Hz _].
      split; [right; split; [done|lia]|]. destruct HI as (_ & _ & _ & _ & Hw).
      rewrite Hr in Hw. destruct Hw as [_ Hq].
      replace (w_next_future w - length (finished_of (w_trace w))) with 0 in Hq by lia.
      simpl. by destruct (w_queue w).
    - exists 0. split; [lia|]. by right.
    - destruct (drain_idle jobs (length (w_queue w)) w HI HI2 Hr eq_refl)
        as (k & Hk & [[Hidle Hempty]|Hfin]);
        exists k; (split; [lia|]); auto.
    - destruct (finish_running jobs w f c a le HI HI2 Hr)
        as (k1 & Hk1 & [Hidle|Hfin] & Hq).
      + destruct (Inv_both_worker_steps k1 jobs w HI HI2) as [HI' HI2'].
        destruct (drain_idle jobs (length (w_queue w)) _ HI' HI2' Hidle)
          as (k2 & Hk2 & Hend); [by rewrite Hq|].
        exists (k1 + k2). split; [lia|]. rewrite replicate_add, run_app.
        destruct Hend as [[? ?]|?]; auto.
      + exists k1. split; [lia|]. by right. }
  exists k. split; [done|].
  destruct (Inv_both_worker_steps k jobs w HI HI2) as [HI' HI2'].
  pose proof (worker_steps_no_cancel k w) as Hnocancel.
  set (w' := run provider (replicate k WorkerStep) w) in *. cbv zeta.
  assert (w_next_future w' = w_next_future w) as Hnext.
  { destruct HI2 as (-> & _). by destruct HI2' as (-> & _). }
  assert (current_job w' = None) as Hjob.
  { unfold current_job. by destruct Hend as [[[->| [-> _]] _]| ->]. }
  assert (w_worker w' <> Finished -> w_queue w' = [] ->
          forall f, f < w_next_future w ->
            (exists a, w_futures w' !! f = Some (Resolved a))
            \/ (exists exc, w_futures w' !! f = Some (Failed exc))
            \/ w_futures w' !! f = Some Cancelled) as Hall.
  { intros Hnf Hempty f Hf.
    assert (f ∈ finished_of (w_trace w')) as Hin.
    { pose proof HI' as (_ & Hs & _ & _ & Hw). rewrite Hs. apply elem_of_seq.
      rewrite Hempty in Hw. simpl in Hw. unfold current_job in Hjob.
      destruct (w_worker w') as [| | |f' c a le]; try done.
      - destruct Hw as [Hle Hq]. rewrite Hnext in *.
        destruct (w_next_future w - length (finished_of (w_trace w'))) eqn:E;
          [lia|done].
      - destruct Hw as [Hle Hq]. rewrite Hnext in *.
        destruct (w_next_future w - length (finished_of (w_trace w'))) eqn:E;
          [lia|done]. }
    destruct (finished_cases _ w' (w_trace w') [] f HI2')
      as [(a & _ & H)|[(exc & _ & H)|(_ & _ & H)]];
      [by rewrite app_nil_r|done|eauto|eauto|auto]. }
  assert (w_worker w' = Finished ->
          exists f, EvCancel f ∈ w_trace w' /\ EvInvalidState f ∈ w_trace w') as Hfin.
  { intros Hfin. destruct HI2' as (_ & _ & Hw & _ & _ & _ & _ & Hcok & _).
    rewrite Hfin in Hw. destruct Hw as [_ [f Hf]]. exists f. split; [|done].
    pose proof Hf as (u & v & Huv)%list_elem_of_split.
    rewrite Huv. apply elem_of_app. left. by apply (Hcok u v f). }
  split; [done|]. split.
  - destruct Hend as [[Hw Hempty]|Hw].
    + left. split; [done|]. apply Hall; [|done]. by destruct Hw as [->|[-> _]].
    + right. auto.
  - intros Hnc.
    assert (forall f, EvCancel f ∉ w_trace w') as Hnc'
      by (intros f Hin; by apply (Hnc f), Hnocancel).
    destruct Hend as [[Hw Hempty]|Hw].
    + split; [done|]. intros f Hf.
      destruct (Hall ltac:(by destruct Hw as [->|[-> _]]) Hempty f Hf)
        as [H|[H|H]]; [by left|by right|].
      destruct HI2' as (_ & _ & _ & _ & _ & _ & Hcan & _).
      apply Hcan in H. by destruct (Hnc' f).
    + destruct (Hfin Hw) as (f & Hc & _). by destruct (Hnc' f).
Qed.
End QueueLog.

(** C1, as the spec has it, fails when a caller is cancelled while it
    waits: the first of two queued requests is cancelled, the worker
    calls the provider for it all the same, finds its future cancelled
    and ends; the next request starts a new worker, which takes the
    second job while the future of the first holds neither a result nor
    an exception, and never will. *)
Lemma worker_fifo_counterexample :
  let provider := fun (n : nat) (_ : list Content) => Returned "ok" in
  let schedule :=
    [Submit [] "a"; Submit [] "b"; Cancel 0; WorkerStep; WorkerStep;
     Submit [] "c"; WorkerStep] in
  let w := run provider schedule init in
  let w' := step provider WorkerStep w in
  w_worker w = Running 1 (chat_contents [] "b") 0 None
  /\ w_trace w' = w_trace w ++ [EvInvoke (Some 1) (chat_contents [] "b");
                                EvSetResult 1 "ok"]
  /\ before (w_trace w') (EvPut 0) (EvPut 1)
  /\ w_futures w !! 0 = Some Cancelled
  /\ w_futures w' !! 0 = Some Cancelled
  /\ (forall a, EvSetResult 0 a ∉ w_trace w')
  /\ (forall exc, EvSetException 0 exc ∉ w_trace w').
Proof.
  intros provider schedule w w'.
  assert (w_trace w' = [EvPut 0; EvPut 1; EvCancel 0;
                        EvInvoke (Some 0) (chat_contents [] "a"); EvInvalidState 0;
                        EvPut 2;
                        EvInvoke (Some 1) (chat_contents [] "b"); EvSetResult 1 "ok"])
    as Ht by reflexivity.
  split; [reflexivity|]. split; [reflexivity|]. split.
  { rewrite Ht. by eexists [], [], _. }
  split; [reflexivity|]. split; [reflexivity|].
  split; intros x Hin; rewrite Ht in Hin;
    repeat (apply elem_of_cons in Hin as [Hin|Hin]; [discriminate|]);
    by apply elem_of_nil in Hin.
Qed.

Lemma worker_fifo_witness :
  let provider := fun (n : nat) (_ : list Content) => Returned "ok" in
  let schedule :=
    [Submit [] "a"; Submit [] "b"; Cancel 0; WorkerStep; WorkerStep;
     Submit [] "c"; WorkerStep; WorkerStep] in
  let w := run provider schedule init in
  let t := w_trace w in
  t = [EvPut 0; EvPut 1; EvCancel 0;
       EvInvoke (Some 0) (chat_contents [] "a"); EvInvalidState 0;
       EvPut 2;
       EvInvoke (Some 1) (chat_contents [] "b"); EvSetResult 1 "ok"]
  /\ ((exists a, EvSetResult 0 a ∈ take 6 t /\ w_futures w !! 0 = Some (Resolved a))
      \/ (exists exc, EvSetException 0 exc ∈ take 6 t
                      /\ w_futures w !! 0 = Some (Failed exc))
      \/ (EvCancel 0 ∈ take 6 t /\ EvInvalidState 0 ∈ take 6 t
          /\ w_futures w !! 0 = Some Cancelled)).
Proof.
  intros provider schedule w t.
  assert (t = [EvPut 0; EvPut 1; EvCancel 0;
               EvInvoke (Some 0) (chat_contents [] "a"); EvInvalidState 0;
               EvPut 2;
               EvInvoke (Some 1) (chat_contents [] "b"); EvSetResult 1 "ok"]) as Ht
    by reflexivity.
  split; [exact Ht|].
  destruct (worker_fifo provider schedule) as [H _].
  destruct (H (take 6 t) (drop 7 t) (Some 1) (chat_contents [] "b"))
    as (j & Hj & Hb & _).
  - fold w t. rewrite Ht. reflexivity.
  - injection Hj as <-. apply Hb. fold w t. rewrite Ht.
    by eexists [], [], _.
Defined.

(** ** [chat] and [chat_endpoint] served alone *)

(** X6: whatever roles the history carries, every turn handed to the
    provider has role "user" or "model", the first turn is a "user" turn,
    and the last turn is the "user" turn with the current message. *)
Theorem chat_contents_roles (history : list ChatTurn) (current_message : string) :
  Forall (fun turn => role turn = "user" \/ role turn = "model")
         (chat_contents history current_message)
  /\ role <$> head (chat_contents history current_message) = Some "user"
  /\ last (chat_contents history current_message)
     = Some (mkContent "user" current_message).
Proof.
  rewrite chat_contents_eq. split; [|split].
  - repeat (apply Forall_cons; split; [by auto|]).
    apply Forall_app. split.
    + rewrite map_fmap. apply Forall_fmap, Forall_forall. intros turn _.
      unfold history_role. simpl. destruct (String.eqb _ _); auto.
    + by repeat constructor; auto.
  - done.
  - change (?a :: ?b :: ?l) with ([a; b] ++ l).
    rewrite !app_assoc. apply last_snoc.
Qed.

Section ChatAlone.
Context (provider : nat -> list Content -> Outcome).

Lemma chat_alone_run history current_message w :
  current_job w = None -> w_queue w = [] ->
  exists k r,
    k <= MAX_RETRIES
    /\ (forall i, i < k ->
          exists exc,
            provider (w_calls w + i) (chat_contents history current_message)
            = Raised exc
            /\ is_429 (status_of exc) = true)
    /\ match r with
       | Return response_text =>
           provider (w_calls w + k) (chat_contents history current_message)
           = Returned response_text
       | Raise exc =>
           provider (w_calls w + k) (chat_contents history current_message)
           = Raised exc
           /\ (is_429 (status_of exc) = false \/ k = MAX_RETRIES)
       end
    /\ fst (chat provider history current_message w)
       = Some match r with
              | Return response_text =>
                  Return (mkChatResult response_text
                            (matched (get_relevant_context current_message)))
              | Raise exc => Raise exc
              end
    /\ w_calls (snd (chat provider history current_message w))
       = w_calls w + k + 1.
Proof.
  intros Hjob Hq. set (c := chat_contents history current_message).
  set (w1 := snd (chat_enqueue history current_message w)).
  assert (chat_enqueue history current_message w
          = (get_relevant_context current_message, w_next_future w, w1)) as Henq.
  { unfold w1, chat_enqueue, submit, _ensure_worker, create_future, q_put, modify.
    unfold mbind, M_bind, mret, M_ret. by destruct (w_worker w). }
  assert (w_worker w1 = Idle /\ w_queue w1 = [(w_next_future w, c)]
          /\ w_futures w1 !! w_next_future w = Some Pending
          /\ w_calls w1 = w_calls w) as (Hw1 & Hq1 & Hf1 & Hc1).
  { unfold w1. rewrite chat_enqueue_world.
    cbn [w_worker w_queue w_futures w_calls]. rewrite Hq, lookup_insert_eq.
    unfold current_job in Hjob. by destruct (w_worker w). }
  set (w2 := set_worker (Running (w_next_future w) c 0 None) (set_queue [] w1)).
  destruct (retry_loop_outcome provider c (MAX_RETRIES + 1) 0 None w2)
    as (k & r & Hk & Hloop & Hfail & Hlast); [done|unfold MAX_RETRIES; lia|].
  exists k, r. split; [done|].
  assert (w_calls w2 = w_calls w) as Hc2 by done. rewrite Hc2 in Hfail, Hlast.
  split; [done|]. split; [done|].
  unfold chat. rewrite Henq, Hq1. cbn [length drain].
  unfold mbind, M_bind, worker_iteration. rewrite Hw1, Hq1. fold w2.
  unfold mbind, M_bind, _call_with_retry. rewrite Hloop.
  rewrite settle_pending by done. unfold mret, M_ret, chat_await.
  destruct r as [response_text|exc]; cbn; rewrite lookup_insert_eq;
    (split; [done|lia]).
Qed.

(** X7: a call of [chat] made while the queue is empty and the worker has
    no job in hand always comes back, after at most [MAX_RETRIES + 1] SDK
    calls with the contents it assembled: with the text the last call
    returned and the section titles selected for the message, or raising
    the exception of the last call, earlier calls having all failed with
    status 429. *)
Theorem chat_alone (history : list ChatTurn) (current_message : string) (w : World) :
  current_job w = None -> w_queue w = [] ->
  let contents := chat_contents history current_message in
  exists k,
    k <= MAX_RETRIES
    /\ (forall i, i < k ->
          exists exc, provider (w_calls w + i) contents = Raised exc
                      /\ is_429 (status_of exc) = true)
    /\ w_calls (snd (chat provider history current_message w)) = w_calls w + k + 1
    /\ match fst (chat provider history current_message w) with
       | Some (Return result) =>
           provider (w_calls w + k) contents = Returned (answer result)
           /\ matched_sections result = matched (get_relevant_context current_message)
       | Some (Raise exc) =>
           provider (w_calls w + k) contents = Raised exc
           /\ (is_429 (status_of exc) = false \/ k = MAX_RETRIES)
       | None => False
       end.
Proof.
  intros Hjob Hq contents.
  destruct (chat_alone_run history current_message w Hjob Hq)
    as (k & r & Hk & Hfail & Hlast & Hres & Hcalls).
  exists k. split; [done|]. split; [done|]. split; [done|].
  rewrite Hres. by destruct r.
Qed.

Lemma history_dicts_eq (body_history : list ChatTurn) :
  map (fun t => mkChatTurn (turn_role t) (turn_text t)) body_history = body_history.
Proof. induction body_history as [|[] l IH]; simpl; congruence. Qed.

(** X8: what [chat_endpoint] answers to a request served alone is either
    the response built from a text the provider returned for this request
    and the titles selected for its message, or one of five fixed error
    bodies; the text of the provider's exception is never sent back, and
    [retry_after] comes with status 429 only. *)
Theorem chat_endpoint_alone (body_message : string) (body_history : list ChatTurn)
    (w : World) :
  current_job w = None -> w_queue w = [] ->
  match fst (chat_endpoint provider body_message body_history w) with
  | Some (inr response) =>
      (exists k, provider k (chat_contents body_history body_message)
                 = Returned (resp_answer response))
      /\ matchedSections response = matched (get_relevant_context body_message)
  | Some (inl e) =>
      e ∈ [ mkHTTPException 429 "rate_limit" "Too many requests. Please wait." (Some 60%Z);
            mkHTTPException 500 "configuration" "Server error. Contact support." None;
            mkHTTPException 503 "service_unavailable" "AI service busy. Try again." None;
            mkHTTPException 400 "content_blocked" "Message blocked by filters." None;
            mkHTTPException 500 "internal_server_error" "Unexpected error." None ]
  | None => False
  end.
Proof.
  intros Hjob Hq. unfold chat_endpoint. rewrite history_dicts_eq.
  destruct (chat_alone_run body_history body_message w Hjob Hq)
    as (k & r & _ & _ & Hlast & Hres & _).
  destruct (chat provider body_history body_message w) as [res w'].
  cbn [fst] in *. subst res. destruct r as [response_text|exc]; cbn.
  - split; [eauto|done].
  - unfold chat_endpoint_except.
    repeat (destruct (any_in _ _); [by repeat constructor|]). by repeat constructor.
Qed.
End ChatAlone.

(** ** Substrings *)

Lemma str_app_cons (x : ascii) (a b : string) :
  String x a +:+ b = String x (a +:+ b).
Proof. done. Qed.

Lemma str_app_assoc (a b c : string) : (a +:+ b) +:+ c = a +:+ (b +:+ c).
Proof.
  induction a as [|x a IH]; [done|]. by rewrite !str_app_cons, IH.
Qed.

Lemma str_app_nil_r (a : string) : a +:+ EmptyString = a.
Proof.
  induction a as [|x a IH]; [done|]. by rewrite str_app_cons, IH.
Qed.

Lemma startswith_spec (p s : string) :
  startswith p s = true <-> exists b, s = p +:+ b.
Proof.
  revert s. induction p as [|x p IH]; intros s; simpl.
  - split; [eauto|done].
  - destruct s as [|y s].
    + split; [done|]. by intros [b Hb].
    + destruct (Ascii.eqb x y) eqn:E.
      * apply Ascii.eqb_eq in E as ->. rewrite IH. split.
        -- intros [b ->]. by exists b.
        -- intros [b [= ->]]. by exists b.
      * apply Ascii.eqb_neq in E. split; [done|]. intros [b [= -> _]]. done.
Qed.

Lemma str_in_unfold (kw s : string) :
  str_in kw s
  = if startswith kw s then true
    else match s with
         | EmptyString => false
         | String _ s' => str_in kw s'
         end.
Proof. by destruct s. Qed.

(** [kw in s] holds exactly when [s] is some text, then [kw], then some text. *)
Lemma str_in_spec (kw s : string) :
  str_in kw s = true <-> exists a b, s = a +:+ kw +:+ b.
Proof.
  split.
  - induction s as [|x s IH]; rewrite str_in_unfold.
    + destruct (startswith kw EmptyString) eqn:E; [|done].
      apply startswith_spec in E as [b Hb]. intros _. by exists EmptyString, b.
    + destruct (startswith kw (String x s)) eqn:E.
      * apply startswith_spec in E as [b Hb]. intros _. by exists EmptyString, b.
      * intros (a & b & ->)%IH. by exists (String x a), b.
  - intros (a & b & ->). induction a as [|x a IH]; rewrite str_in_unfold.
    + replace (startswith kw (EmptyString +:+ kw +:+ b)) with true; [done|].
      symmetry. apply startswith_spec. by exists b.
    + simpl. rewrite IH. by destruct (startswith _ _).
Qed.

Lemma str_lower_app (a b : string) :
  str_lower (a +:+ b) = str_lower a +:+ str_lower b.
Proof.
  induction a as [|x a IH]; [done|].
  rewrite str_app_cons. cbn [str_lower]. by rewrite str_app_cons, IH.
Qed.

Lemma str_in_trans (a b c : string) :
  str_in a b = true -> str_in b c = true -> str_in a c = true.
Proof.
  intros (a1 & a2 & ->)%str_in_spec (b1 & b2 & ->)%str_in_spec.
  apply str_in_spec. exists (b1 +:+ a1), (a2 +:+ b2).
  by rewrite !str_app_assoc.
Qed.

Lemma str_in_lower (a b : string) :
  str_in a b = true -> str_in (str_lower a) (str_lower b) = true.
Proof.
  intros (b1 & b2 & ->)%str_in_spec. apply str_in_spec.
  exists (str_lower b1), (str_lower b2). by rewrite !str_lower_app.
Qed.

Lemma str_in_join (sep p : string) (parts : list string) :
  p ∈ parts -> str_in p (str_join sep parts) = true.
Proof.
  intros Hin. apply str_in_spec.
  induction parts as [|q parts IH]; [inversion Hin|].
  apply elem_of_cons in Hin as [->|Hin].
  - destruct parts as [|q' parts].
    + exists EmptyString, EmptyString. simpl. by rewrite str_app_nil_r.
    + exists EmptyString, (sep +:+ str_join sep (q' :: parts)). done.
  - destruct (IH Hin) as (a & b & Hab).
    destruct parts as [|q' parts]; [inversion Hin|].
    exists (q +:+ sep +:+ a), b.
    change (str_join sep (q :: q' :: parts))
      with (q +:+ sep +:+ str_join sep (q' :: parts)).
    by rewrite Hab, !str_app_assoc.
Qed.

(** ** More on the context selector *)

Lemma matched_titles_selected query s :
  s ∈ SECTIONS -> title s ∈ matched (get_relevant_context query) ->
  s ∈ selected_of (str_lower query).
Proof.
  intros Hs [i Hi]%list_elem_of_lookup.
  eapply list_elem_of_lookup_2, matched_lookup; done.
Qed.

(** X9: whatever the query, [matched] lists between one and all of the
    catalog's titles, each at most once, and nothing else. *)
Theorem matched_titles_distinct (query : string) :
  let titles := matched (get_relevant_context query) in
  NoDup titles
  /\ (forall t, t ∈ titles -> t ∈ map title SECTIONS)
  /\ 1 <= length titles <= length SECTIONS.
Proof.
  intros titles. subst titles. unfold get_relevant_context. cbn [matched].
  set (sel := selected_of (str_lower query)).
  assert (forall s, s ∈ sel -> s ∈ SECTIONS) as Hsub
    by (intros s; apply selected_of_sub).
  pose proof (selected_of_NoDup (str_lower query)) as Hnd. fold sel in Hnd.
  split; [|split; [|split]].
  - rewrite map_fmap. apply NoDup_fmap_2_strong; [|done].
    intros a b Ha Hb. apply title_inj; by apply Hsub.
  - intros t. rewrite !map_fmap. intros (s & -> & Hs)%list_elem_of_fmap.
    apply list_elem_of_fmap. exists s. auto.
  - rewrite length_map. unfold sel.
    destruct (selected_of_cases (str_lower query)) as [(_ & -> & _)|(Hne & ->)].
    + simpl. lia.
    + destruct (matched_of (str_lower query)); [done|simpl; lia].
  - rewrite length_map. apply submseteq_length, NoDup_submseteq; done.
Qed.

(** X10: [full_text] carries the heading and the whole content of every
    section whose title is in [matched]. *)
Theorem full_text_has_matched_sections (query : string) (s : Section) :
  s ∈ SECTIONS ->
  title s ∈ matched (get_relevant_context query) ->
  let text := full_text (get_relevant_context query) in
  str_in (fmt_section s) text = true
  /\ str_in ("### " +:+ title s) text = true
  /\ str_in (content s) text = true.
Proof.
  intros Hs Ht text.
  assert (str_in (fmt_section s) text = true) as Hfmt.
  { subst text. unfold get_relevant_context. cbn [full_text].
    apply str_in_join. rewrite map_fmap. apply list_elem_of_fmap.
    exists s. split; [done|]. by apply matched_titles_selected. }
  split; [done|]. split.
  - eapply str_in_trans; [|exact Hfmt]. apply str_in_spec.
    exists EmptyString, (String (ascii_of_nat 10) (content s)).
    unfold fmt_section. by rewrite !str_app_assoc.
  - eapply str_in_trans; [|exact Hfmt]. apply str_in_spec.
    exists ("### " +:+ title s +:+ String (ascii_of_nat 10) EmptyString), EmptyString.
    unfold fmt_section. by rewrite str_app_nil_r, !str_app_assoc.
Qed.

Lemma hits_of_mono (l1 l2 : string) (s : Section) :
  (forall kw, str_in kw l1 = true -> str_in kw l2 = true) ->
  hits_of l1 s <= hits_of l2 s.
Proof.
  intros H. unfold hits_of. induction (keywords s) as [|kw kws IH]; [done|].
  cbn [foldr]. destruct (str_in kw l1) eqn:E.
  - rewrite (H kw E). lia.
  - destruct (str_in kw l2); lia.
Qed.

(** X11: adding text around a query never loses a match.  When a query
    occurs inside another one, no section has fewer hits for the longer
    query, and if the shorter query matched some keyword, every title it
    is given is also given for the longer one. *)
Theorem longer_query_keeps_matches (query1 query2 : string) :
  str_in query1 query2 = true ->
  (forall s, hits_of (str_lower query1) s <= hits_of (str_lower query2) s)
  /\ ((exists s, s ∈ SECTIONS /\ 0 < hits_of (str_lower query1) s) ->
      forall t, t ∈ matched (get_relevant_context query1) ->
                t ∈ matched (get_relevant_context query2)).
Proof.
  intros Hsub.
  assert (forall s, hits_of (str_lower query1) s <= hits_of (str_lower query2) s)
    as Hmono.
  { intros s. apply hits_of_mono. intros kw Hkw.
    eapply str_in_trans; [exact Hkw|]. by apply str_in_lower. }
  split; [done|]. intros (s0 & Hs0 & Hpos0) t.
  unfold get_relevant_context. cbn [matched]. rewrite !map_fmap.
  intros (s & -> & Hs)%list_elem_of_fmap. apply list_elem_of_fmap.
  exists s. split; [done|].
  assert (forall s', s' ∈ SECTIONS -> 0 < hits_of (str_lower query1) s' ->
                     s' ∈ selected_of (str_lower query2)) as Hkeep.
  { intros s' Hs' Hpos.
    assert (s' ∈ matched_of (str_lower query2)) as Hin
      by (apply elem_of_matched_of; split; [done|specialize (Hmono s'); lia]).
    destruct (selected_of_cases (str_lower query2)) as [(Hnil & _)|(_ & ->)];
      [|done].
    rewrite Hnil in Hin. inversion Hin. }
  destruct (selected_of_cases (str_lower query1)) as [(_ & _ & Hz)|(_ & Hsel)].
  - specialize (Hz s0 Hs0). lia.
  - rewrite Hsel in Hs. apply elem_of_matched_of in Hs as [Hs Hpos]. by apply Hkeep.
Qed.

(** ** The selector over any catalog, and the RAG-Server revision *)
Section CatalogFacts.
Context (catalog : list Section).

Lemma matched_in_eq lower :
  matched_in catalog lower
  = sorted_reverse (hits_of lower) (filter (fun s => 0 < hits_of lower s) catalog).
Proof.
  unfold matched_in. f_equal.
  induction catalog as [|s l IH]; [done|].
  cbn [map]. rewrite !filter_cons. cbn [snd].
  case_decide; cbn [map fst]; by rewrite IH.
Qed.

Lemma matched_in_perm lower :
  matched_in catalog lower ≡ₚ filter (fun s => 0 < hits_of lower s) catalog.
Proof. rewrite matched_in_eq. apply sorted_reverse_perm. Qed.

Lemma elem_of_matched_in lower s :
  s ∈ matched_in catalog lower <-> s ∈ catalog /\ 0 < hits_of lower s.
Proof. rewrite matched_in_perm, list_elem_of_filter. tauto. Qed.

Lemma selected_in_cases lower :
  (matched_in catalog lower = [] /\ selected_in catalog lower = catalog
   /\ forall s, s ∈ catalog -> hits_of lower s = 0)
  \/ (matched_in catalog lower <> []
      /\ selected_in catalog lower = matched_in catalog lower).
Proof.
  unfold selected_in. destruct (matched_in catalog lower) as [|m ms] eqn:E.
  - left. repeat split. intros s Hs.
    destruct (hits_of lower s) as [|n] eqn:En; [done|].
    assert (s ∈ matched_in catalog lower) as Hin
      by (apply elem_of_matched_in; split; [done|lia]).
    rewrite E in Hin. inversion Hin.
  - right. by split.
Qed.

Lemma selected_in_descending lower :
  descending (hits_of lower) (selected_in catalog lower).
Proof.
  destruct (selected_in_cases lower) as [(_ & -> & Hz)|(_ & ->)].
  - intros i j a b Hi Hj _.
    rewrite (Hz a), (Hz b); [done| |]; by eapply list_elem_of_lookup_2.
  - rewrite matched_in_eq. apply sorted_reverse_descending.
Qed.

Lemma selected_in_before lower a b :
  before catalog a b -> hits_of lower a = hits_of lower b ->
  a ∈ selected_in catalog lower -> b ∈ selected_in catalog lower ->
  before (selected_in catalog lower) a b.
Proof.
  intros Hab Hk.
  destruct (selected_in_cases lower) as [(_ & -> & _)|(_ & ->)]; [done|].
  intros [_ Ha]%elem_of_matched_in [_ Hb]%elem_of_matched_in.
  rewrite matched_in_eq. apply sorted_reverse_before; [|done].
  by apply before_filter.
Qed.

Lemma selected_in_sub lower s : s ∈ selected_in catalog lower -> s ∈ catalog.
Proof.
  destruct (selected_in_cases lower) as [(_ & -> & _)|(_ & ->)]; [done|].
  by intros [? _]%elem_of_matched_in.
Qed.

Lemma selected_in_nonempty lower : catalog <> [] -> selected_in catalog lower <> [].
Proof.
  intros Hne. destruct (selected_in_cases lower) as [(_ & -> & _)|(? & ->)]; done.
Qed.
End CatalogFacts.

Lemma rag_selected_of_eq lower :
  RagServer.selected_of lower = selected_in RagServer.SECTIONS lower.
Proof. done. Qed.

Lemma rag_titles_NoDup : NoDup (map title RagServer.SECTIONS).
Proof. apply (bool_decide_unpack _). by vm_compute. Qed.

(** X12: the RAG-Server revision of [get_relevant_context], over its own
    catalog, lists in [matched] the titles of the selected sections; when
    some keyword occurs in the query these are exactly the sections with a
    hit, sections with more hits come first, and sections with equal hits
    stay in catalog order. *)
Theorem rag_get_relevant_context_ranking (query : string) :
  let lower := str_lower query in
  let hits := hits_of lower in
  let selected := RagServer.selected_of lower in
  matched (RagServer.get_relevant_context query) = map title selected
  /\ full_text (RagServer.get_relevant_context query)
     = str_join KB_SEPARATOR (map fmt_section selected)
  /\ descending hits selected
  /\ (forall a b, before RagServer.SECTIONS a b -> hits a = hits b ->
                  a ∈ selected -> b ∈ selected -> before selected a b)
  /\ ((exists s, s ∈ RagServer.SECTIONS /\ 0 < hits s) ->
      forall s, s ∈ selected <-> s ∈ RagServer.SECTIONS /\ 0 < hits s)
  /\ NoDup (matched (RagServer.get_relevant_context query)).
Proof.
  intros lower hits selected. subst selected hits.
  rewrite rag_selected_of_eq.
  split; [done|]. split; [done|].
  split; [apply selected_in_descending|].
  split; [apply selected_in_before|]. split.
  - intros (s0 & Hs0 & Hpos) s.
    destruct (selected_in_cases RagServer.SECTIONS lower) as [(_ & _ & Hz)|(_ & ->)].
    + specialize (Hz s0 Hs0). lia.
    + apply elem_of_matched_in.
  - unfold RagServer.get_relevant_context. cbn [matched].
    rewrite rag_selected_of_eq, map_fmap. apply NoDup_fmap_2_strong.
    + intros a b Ha%selected_in_sub Hb%selected_in_sub Ht.
      apply list_elem_of_lookup in Ha as [i Hi]. apply list_elem_of_lookup in Hb as [j Hj].
      assert (i = j) as ->; [|congruence].
      eapply NoDup_lookup; [apply rag_titles_NoDup| |].
      * by rewrite map_fmap, list_lookup_fmap, Hi.
      * by rewrite map_fmap, list_lookup_fmap, Hj, Ht.
    + destruct (selected_in_cases RagServer.SECTIONS (str_lower query))
        as [(_ & -> & _)|(_ & ->)].
      * eapply NoDup_fmap_1. rewrite <- map_fmap. apply rag_titles_NoDup.
      * rewrite matched_in_perm. apply NoDup_filter.
        eapply NoDup_fmap_1. rewrite <- map_fmap. apply rag_titles_NoDup.
Qed.

(** X13: in the RAG-Server revision too, a query without any keyword hit,
    the empty query among them, gets the four sections of the catalog in
    catalog order and the whole knowledge base as [full_text], and
    [matched] is never empty. *)
Theorem rag_get_relevant_context_fallback :
  (forall query,
      (forall s, s ∈ RagServer.SECTIONS -> hits_of (str_lower query) s = 0) ->
      matched (RagServer.get_relevant_context query) = map title RagServer.SECTIONS
      /\ full_text (RagServer.get_relevant_context query)
         = RagServer.get_full_knowledge_base tt)
  /\ (forall s, s ∈ RagServer.SECTIONS -> hits_of (str_lower "") s = 0)
  /\ (forall query, matched (RagServer.get_relevant_context query) <> []).
Proof.
  split; [|split].
  - intros query Hz.
    unfold RagServer.get_relevant_context, RagServer.get_full_knowledge_base.
    cbn [matched full_text]. rewrite rag_selected_of_eq.
    destruct (selected_in_cases RagServer.SECTIONS (str_lower query))
      as [(_ & -> & _)|(Hne & _)]; [done|].
    destruct (matched_in RagServer.SECTIONS (str_lower query)) as [|m ms] eqn:E;
      [done|].
    assert (m ∈ matched_in RagServer.SECTIONS (str_lower query)) as Hm
      by (rewrite E; left).
    apply elem_of_matched_in in Hm as [Hm Hpos]. rewrite (Hz m Hm) in Hpos. lia.
  - apply Forall_forall. by vm_compute; repeat constructor.
  - intros query. unfold RagServer.get_relevant_context. cbn [matched].
    rewrite rag_selected_of_eq.
    pose proof (selected_in_nonempty RagServer.SECTIONS (str_lower query)) as Hne.
    destruct (selected_in RagServer.SECTIONS (str_lower query)); [|done].
    by destruct Hne.
Qed.

(** ** Request validation *)

(** *** The characters of a string *)

Lemma str_concat_app (l1 l2 : list string) :
  str_concat (l1 ++ l2) = str_concat l1 +:+ str_concat l2.
Proof.
  induction l1 as [|ch l1 IH]; [done|]. cbn [str_concat app].
  by rewrite IH, str_app_assoc.
Qed.

Lemma chars_continues (s : string) ch rest :
  chars s = ch :: rest -> continues ch = continues s.
Proof.
  destruct s as [|b s]; [done|]. cbn [chars].
  destruct (chars s) as [|ch' rest']; [by intros [= <- _]|].
  destruct (continues ch'); by intros [= <- _].
Qed.

Lemma str_concat_chars (s : string) : str_concat (chars s) = s.
Proof.
  induction s as [|b s IH]; [done|]. cbn [chars].
  destruct (chars s) as [|ch rest].
  - cbn [str_concat] in *. by rewrite <- IH.
  - cbn [str_concat] in IH. destruct (continues ch); cbn [str_concat].
    + by rewrite str_app_cons, IH.
    + by rewrite str_app_cons, IH.
Qed.

Lemma chars_wf (s : string) : wf_chunks (chars s).
Proof.
  induction s as [|b s IH]; [done|]. cbn [chars].
  destruct (chars s) as [|ch rest]; [split; [by exists b, EmptyString|done]|].
  destruct IH as [(b' & tl & -> & Htl) Hrest].
  destruct (continues (String b' tl)) eqn:E.
  - split; [|done]. exists b, (String b' tl). split; [done|].
    cbn [all_continuation]. cbn [continues] in E. by rewrite E, Htl.
  - split; [by exists b, EmptyString|]. constructor; [|done].
    split; [|done]. by exists b', tl.
Qed.

Lemma chars_chunk b tl s :
  all_continuation tl = true -> continues s = false ->
  chars (String b tl +:+ s) = String b tl :: chars s.
Proof.
  revert b. induction tl as [|b' tl IH]; intros b Htl Hs.
  - rewrite str_app_cons. cbn [chars]. change (EmptyString +:+ s) with s.
    destruct (chars s) as [|ch rest] eqn:E; [done|].
    by rewrite (chars_continues s ch rest E), Hs.
  - cbn [all_continuation] in Htl. apply andb_true_iff in Htl as [Hb' Htl].
    rewrite str_app_cons. cbn [chars]. rewrite (IH b' Htl Hs).
    cbn [continues]. by rewrite Hb'.
Qed.

Lemma str_concat_continues (l : list string) :
  Forall (fun c => chunk_ok c /\ continues c = false) l ->
  continues (str_concat l) = false.
Proof.
  intros [|ch rest [(b & tl & -> & _) Hc] _]; [done|]. by cbn.
Qed.

Lemma chars_str_concat (l : list string) :
  wf_chunks l -> chars (str_concat l) = l.
Proof.
  assert (forall l, Forall (fun c => chunk_ok c /\ continues c = false) l ->
                    chars (str_concat l) = l) as Hstrict.
  { intros l'. induction 1 as [|ch rest [(b & tl & -> & Htl) Hc] Hrest IH]; [done|].
    cbn [str_concat]. rewrite chars_chunk, IH; [done|done|].
    by apply str_concat_continues. }
  destruct l as [|ch rest]; [done|]. intros [(b & tl & -> & Htl) Hrest].
  cbn [str_concat]. rewrite chars_chunk, Hstrict; [done|done|done|].
  by apply str_concat_continues.
Qed.

Lemma wf_chunks_app (l1 l2 : list string) :
  wf_chunks (l1 ++ l2) -> wf_chunks l1 /\ wf_chunks l2.
Proof.
  destruct l1 as [|ch l1]; [done|]. intros [Hch Hrest].
  apply Forall_app in Hrest as [H1 H2]. split; [done|].
  destruct l2 as [|ch2 l2]; [done|].
  apply Forall_cons in H2 as [[Hc _] H2]. done.
Qed.

(** *** Stripping *)

Lemma lstrip_chars_prefix (l : list string) :
  exists a, forallb is_space a = true /\ l = a ++ lstrip_chars l.
Proof.
  induction l as [|x l IH]; [by exists []|]. cbn [lstrip_chars].
  destruct (is_space x) eqn:E; [|by exists []].
  destruct IH as (a & Ha & Hl). exists (x :: a). cbn [forallb].
  rewrite E, Ha. split; [done|]. cbn [app]. by rewrite <- Hl.
Qed.

Lemma rstrip_chars_suffix (l : list string) :
  exists b, forallb is_space b = true /\ l = rstrip_chars l ++ b.
Proof.
  induction l as [|x l IH]; [by exists []|]. cbn [rstrip_chars].
  destruct IH as (b & Hb & Hl). destruct (rstrip_chars l) as [|y r] eqn:Er.
  - destruct (is_space x) eqn:E.
    + exists (x :: b). cbn [forallb]. rewrite E, Hb. split; [done|].
      by rewrite Hl.
    + exists b. split; [done|]. by rewrite Hl.
  - exists b. split; [done|]. by rewrite Hl at 1.
Qed.

Lemma lstrip_chars_head (l : list string) c m :
  lstrip_chars l = c :: m -> is_space c = false.
Proof.
  induction l as [|x l IH]; [done|]. cbn [lstrip_chars].
  destruct (is_space x) eqn:E; [done|]. by intros [= <- _].
Qed.

Lemma rstrip_chars_last (l : list string) :
  forall m c, rstrip_chars l = m ++ [c] -> is_space c = false.
Proof.
  induction l as [|x l IH]; intros m c; cbn [rstrip_chars].
  - by destruct m.
  - destruct (rstrip_chars l) as [|y r] eqn:Er.
    + destruct (is_space x) eqn:E; [by destruct m|].
      destruct m as [|z m]; [by intros [= ->]|].
      intros [= _ H]. by destruct m.
    + destruct m as [|z m].
      * by intros [=].
      * intros [= _ H]. by apply (IH m c).
Qed.

Lemma lstrip_chars_fixed (m : list string) :
  (forall c m', m = c :: m' -> is_space c = false) -> lstrip_chars m = m.
Proof.
  destruct m as [|c m]; [done|]. intros H. cbn [lstrip_chars]. by rewrite (H c m).
Qed.

Lemma rstrip_chars_fixed (m : list string) :
  (forall m' c, m = m' ++ [c] -> is_space c = false) -> rstrip_chars m = m.
Proof.
  induction m as [|x m IH]; [done|]. intros H. cbn [rstrip_chars].
  destruct m as [|y m].
  - cbn [rstrip_chars]. by rewrite (H [] x).
  - rewrite IH; [done|]. intros m' c Hm. apply (H (x :: m') c).
    by rewrite Hm.
Qed.

Lemma strip_chars_parts (l : list string) :
  exists a b,
    forallb is_space a = true /\ forallb is_space b = true
    /\ l = a ++ strip_chars l ++ b.
Proof.
  destruct (rstrip_chars_suffix l) as (b & Hb & Hl).
  destruct (lstrip_chars_prefix (rstrip_chars l)) as (a & Ha & Hr).
  exists a, b. split; [done|]. split; [done|]. unfold strip_chars.
  by rewrite app_assoc, <- Hr.
Qed.

Lemma strip_chars_first (l : list string) c m :
  strip_chars l = c :: m -> is_space c = false.
Proof. apply lstrip_chars_head. Qed.

Lemma strip_chars_last (l : list string) m c :
  strip_chars l = m ++ [c] -> is_space c = false.
Proof.
  unfold strip_chars. intros H.
  destruct (lstrip_chars_prefix (rstrip_chars l)) as (a & _ & Hr). rewrite H in Hr.
  apply (rstrip_chars_last l (a ++ m) c). by rewrite <- app_assoc.
Qed.

Lemma strip_chars_idem (l : list string) : strip_chars (strip_chars l) = strip_chars l.
Proof.
  unfold strip_chars at 1. rewrite (rstrip_chars_fixed (strip_chars l)).
  - apply lstrip_chars_fixed. apply strip_chars_first.
  - apply strip_chars_last.
Qed.

Lemma all_space_lstrip_chars (l : list string) :
  forallb is_space l = true -> lstrip_chars l = [].
Proof.
  induction l as [|x l IH]; [done|]. cbn [forallb lstrip_chars].
  intros [-> Hl]%andb_true_iff. by apply IH.
Qed.

Lemma strip_chars_empty_iff (l : list string) :
  strip_chars l = [] <-> forallb is_space l = true.
Proof.
  destruct (strip_chars_parts l) as (a & b & Ha & Hb & Hl). split.
  - intros H. rewrite H in Hl. rewrite Hl, !forallb_app, Ha, Hb. done.
  - intros H. unfold strip_chars. apply all_space_lstrip_chars.
    destruct (rstrip_chars_suffix l) as (b' & _ & Hl').
    rewrite Hl', forallb_app in H. by apply andb_true_iff in H as [? _].
Qed.

(** The characters of [s.strip()] are those of [s] without the white
    space at both ends. *)
Lemma chars_strip (v : string) : chars (strip v) = strip_chars (chars v).
Proof.
  destruct (strip_chars_parts (chars v)) as (a & b & _ & _ & Hl).
  pose proof (chars_wf v) as Hwf. rewrite Hl in Hwf.
  apply wf_chunks_app in Hwf as [_ Hwf]. apply wf_chunks_app in Hwf as [Hwf _].
  by apply chars_str_concat.
Qed.

Lemma strip_empty_iff (v : string) : strip v = EmptyString <-> all_space v = true.
Proof.
  unfold all_space. rewrite <- strip_chars_empty_iff. split.
  - intros H. rewrite <- chars_strip, H. done.
  - intros H. unfold strip. by rewrite H.
Qed.

(** X14: [validate_message] accepts a message exactly when it has a
    character that is not white space, white space being what Python
    takes for it, beyond ASCII too; the value it hands on is the message
    without its leading and trailing white-space characters: not empty,
    beginning and ending with a character that is not white space, a
    piece of the original cut out at character boundaries, and left
    unchanged by a second validation. *)
Theorem validate_message_strips (v : string) :
  match validate_message v with
  | Return m =>
      all_space v = false
      /\ m <> EmptyString
      /\ (exists a b, all_space a = true /\ all_space b = true
                      /\ v = a +:+ m +:+ b
                      /\ chars v = chars a ++ chars m ++ chars b)
      /\ (forall c cs, chars m = c :: cs -> is_space c = false)
      /\ (forall cs c, chars m = cs ++ [c] -> is_space c = false)
      /\ str_in m v = true
      /\ validate_message m = Return m
  | Raise _ => all_space v = true
  end.
Proof.
  unfold validate_message at 1. destruct (String.eqb (strip v) EmptyString) eqn:E.
  - apply String.eqb_eq in E. by apply strip_empty_iff.
  - apply String.eqb_neq in E.
    destruct (strip_chars_parts (chars v)) as (la & lb & Ha & Hb & Hl).
    pose proof (chars_wf v) as Hwf. rewrite Hl in Hwf.
    apply wf_chunks_app in Hwf as [Hwfa Hwf].
    apply wf_chunks_app in Hwf as [_ Hwfb].
    assert (v = str_concat la +:+ strip v +:+ str_concat lb) as Hv.
    { rewrite <- (str_concat_chars v) at 1. rewrite Hl at 1.
      by rewrite !str_concat_app. }
    split.
    { destruct (all_space v) eqn:Hall; [|done]. by apply strip_empty_iff in Hall. }
    split; [done|]. split.
    { exists (str_concat la), (str_concat lb).
      unfold all_space. rewrite chars_strip, !chars_str_concat by done.
      done. }
    split; [rewrite chars_strip; apply strip_chars_first|].
    split; [rewrite chars_strip; apply strip_chars_last|].
    split; [apply str_in_spec; by exists (str_concat la), (str_concat lb)|].
    assert (strip (strip v) = strip v) as Hidem.
    { unfold strip at 1. by rewrite chars_strip, strip_chars_idem. }
    unfold validate_message. rewrite Hidem.
    apply String.eqb_neq in E. by rewrite E.
Qed.

(** X15: a request whose message and history pass the validators reaches
    the provider as at most 53 turns, the last of which is the "user" turn
    with the stripped, non-empty message. *)
Theorem validated_request_contents
    (body_message : string) (body_history : list ChatTurn)
    (message : string) (history : list ChatTurn) :
  validate_message body_message = Return message ->
  validate_history_length body_history = Return history ->
  history = body_history
  /\ length (chat_contents history message) <= 53
  /\ last (chat_contents history message) = Some (mkContent "user" message)
  /\ message = strip body_message
  /\ message <> EmptyString.
Proof.
  intros Hm Hh. unfold validate_history_length in Hh.
  destruct (50 <? length body_history)%nat eqn:E; [done|].
  apply Nat.ltb_ge in E. injection Hh as <-.
  unfold validate_message in Hm.
  destruct (String.eqb (strip body_message) EmptyString) eqn:Em; [done|].
  injection Hm as <-. apply String.eqb_neq in Em.
  split; [done|]. split; [|split; [|done]].
  - rewrite chat_contents_eq, !length_app, length_map. simpl. lia.
  - rewrite chat_contents_eq.
    change (?a :: ?b :: ?l) with ([a; b] ++ l).
    rewrite !app_assoc. apply last_snoc.
Qed.

(** X16: the index page is read once.  Whatever [static/index.html] holds
    or becomes afterwards, every call of [_read_index] after the first
    returns what the first call returned, which is the text of the file at
    that time or the fixed placeholder when there was no file. *)
Theorem read_index_cached (index_file1 index_file2 : option string)
    (cache : option string) :
  let (html1, cache1) := _read_index index_file1 cache in
  let (html2, cache2) := _read_index index_file2 cache1 in
  html2 = html1 /\ cache2 = cache1 /\ cache1 = Some html1
  /\ (cache = None ->
      html1 = default "<h1>API Server</h1><p>Use POST /api/chat</p>" index_file1).
Proof.
  unfold _read_index. destruct cache as [html|]; [done|].
  by destruct index_file1.
Qed.

Lemma chat_alone_witness :
  let exc := mkException (PyInt 429) PyNone "429 RESOURCE_EXHAUSTED" in
  let provider := fun (n : nat) (_ : list Content) =>
                    if (n <? 2)%nat then Raised exc else Returned "ok" in
  exists k,
    k <= MAX_RETRIES
    /\ w_calls (snd (chat provider [] "hi" init)) = w_calls init + k + 1
    /\ fst (chat provider [] "hi" init)
       = Some (Return (mkChatResult "ok" (map title SECTIONS))).
Proof.
  intros exc provider.
  destruct (chat_alone provider [] "hi" init) as (k & Hk & _ & Hcalls & _).
  - reflexivity.
  - reflexivity.
  - exists k. split; [exact Hk|]. split; [exact Hcalls|]. by vm_compute.
Defined.

Lemma chat_endpoint_alone_witness :
  let exc := mkException PyNone PyNone "API key not valid" in
  let provider := fun (n : nat) (_ : list Content) => Raised exc in
  fst (chat_endpoint provider "hi" [] init)
  = Some (inl (mkHTTPException 500 "configuration"
                 "Server error. Contact support." None))
  /\ match fst (chat_endpoint provider "hi" [] init) with
     | Some (inr response) =>
         (exists k, provider k (chat_contents [] "hi")
                    = Returned (resp_answer response))
         /\ matchedSections response = matched (get_relevant_context "hi")
     | Some (inl e) =>
         e ∈ [ mkHTTPException 429 "rate_limit" "Too many requests. Please wait." (Some 60%Z);
               mkHTTPException 500 "configuration" "Server error. Contact support." None;
               mkHTTPException 503 "service_unavailable" "AI service busy. Try again." None;
               mkHTTPException 400 "content_blocked" "Message blocked by filters." None;
               mkHTTPException 500 "internal_server_error" "Unexpected error." None ]
     | None => False
     end.
Proof.
  intros exc provider. split; [by vm_compute|].
  exact (chat_endpoint_alone provider "hi" [] init eq_refl eq_refl).
Defined.

Lemma full_text_has_matched_sections_witness :
  str_in (content sec_customer_faq)
         (full_text (get_relevant_context "How do I book an appointment?")) = true.
Proof.
  apply (full_text_has_matched_sections "How do I book an appointment?"
           sec_customer_faq).
  - by apply (list_elem_of_lookup_2 _ 3).
  - apply (list_elem_of_lookup_2 _ 0). by vm_compute.
Defined.

Lemma longer_query_keeps_matches_witness :
  "4. Customer FAQ" ∈ matched (get_relevant_context "Can I book for my team?").
Proof.
  destruct (longer_query_keeps_matches "book" "Can I book for my team?") as [_ H].
  - by vm_compute.
  - apply H.
    + exists sec_customer_faq. split; [by apply (list_elem_of_lookup_2 _ 3)|].
      vm_compute. lia.
    + apply (list_elem_of_lookup_2 _ 0). by vm_compute.
Defined.

Lemma validated_request_contents_witness :
  length (chat_contents [mkChatTurn "user" "hello"] "hi") <= 53
  /\ "hi" = strip "  hi
 ".
Proof.
  destruct (validated_request_contents "  hi
 " [mkChatTurn "user" "hello"] "hi" [mkChatTurn "user" "hello"])
    as (_ & Hlen & _ & Hstrip & _).
  - by vm_compute.
  - by vm_compute.
  - split; [exact Hlen|exact Hstrip].
Defined.
